(** * Terminal Snake: a shallow embedding of [snake_game.py]

    The class [SnakeGame] is embedded as a record [Game] together with the
    part of the outside world its methods touch (the state of the [random]
    module, the console keyboard buffer, the wall clock).  Methods are
    functions in a small state-and-failure monad: a Python method that
    mutates [self] and may raise or never return becomes a function from a
    state to an [outcome] and the state it left behind. *)

From Stdlib Require Import ZArith List Bool Ascii String Lia.
From Stdlib Require Import DecimalString.
Import ListNotations.

Local Open Scope Z_scope.

(** ** Outcomes and the monad *)

(** The exceptions the embedded code can raise. *)
Inductive exn : Type :=
| IndexError          (* [self.snake[0]] or [pop()] on an empty list *)
| ValueError          (* [random.randint(a, b)] with an empty range  *)
| UnicodeDecodeError. (* [key.decode('utf-8')] on a byte >= 0x80     *)

(** How a call ends: it returns a value, it raises, or it does not come
    back within the horizon the model was given (the fuel of an unbounded
    loop ran out, or a blocking read found nothing to read). *)
Inductive outcome (A : Type) : Type :=
| Ret (a : A)
| Raise (e : exn)
| Hang.

Arguments Ret {A} a.
Arguments Raise {A} e.
Arguments Hang {A}.

(** Objects are mutated in place, so the state survives a failure. *)
Definition M (S A : Type) : Type := S -> outcome A * S.

Definition ret {S A} (a : A) : M S A := fun s => (Ret a, s).
Definition raise {S A} (e : exn) : M S A := fun s => (Raise e, s).
Definition hang {S A} : M S A := fun s => (Hang, s).

Definition bind {S A B} (m : M S A) (k : A -> M S B) : M S B :=
  fun s =>
    match m s with
    | (Ret a, s') => k a s'
    | (Raise e, s') => (Raise e, s')
    | (Hang, s') => (Hang, s')
    end.

Definition modify {S} (f : S -> S) : M S unit := fun s => (Ret tt, f s).

Notation "x <- m ;; k" := (bind m (fun x => k))
  (at level 61, m at next level, right associativity).
Notation "m ;;; k" := (bind m (fun _ => k))
  (at level 61, right associativity).

(** ** Data model *)

Definition Position : Type := Z * Z.

Definition pos_eqb (p q : Position) : bool :=
  (fst p =? fst q) && (snd p =? snd q).

(** Python's [p in l] on a list of tuples. *)
Definition mem (p : Position) (l : list Position) : bool :=
  existsb (pos_eqb p) l.

(** The attributes of a [SnakeGame] instance. *)
Record Game : Type := mkGame {
  width : Z;
  height : Z;
  snake : list Position;
  direction : Position;
  food : Position;
  score : Z;
  game_over : bool
}.

Definition set_snake (l : list Position) (g : Game) : Game :=
  mkGame (width g) (height g) l (direction g) (food g) (score g) (game_over g).
Definition set_direction (d : Position) (g : Game) : Game :=
  mkGame (width g) (height g) (snake g) d (food g) (score g) (game_over g).
Definition set_food (f : Position) (g : Game) : Game :=
  mkGame (width g) (height g) (snake g) (direction g) f (score g) (game_over g).
Definition set_score (n : Z) (g : Game) : Game :=
  mkGame (width g) (height g) (snake g) (direction g) (food g) n (game_over g).
Definition set_game_over (b : bool) (g : Game) : Game :=
  mkGame (width g) (height g) (snake g) (direction g) (food g) (score g) b.

(** ** The outside world *)

(** What the 200 ms polling loop meets each time it looks at the clock:
    either the window is still open, and [arrived] are the bytes typed
    since the previous look, or the window has run out. *)
Inductive event : Type :=
| Poll (arrived : list ascii)
| Expire.

(** [draws] is the sequence of raw values the [random] module will hand out
    and [cursor] how many have been used; [kbd] is the console input buffer
    read by [msvcrt]; [clock] is what is still to come. *)
Record Env : Type := mkEnv {
  draws : nat -> Z;
  cursor : nat;
  kbd : list ascii;
  clock : list event
}.

Definition set_cursor (c : nat) (e : Env) : Env :=
  mkEnv (draws e) c (kbd e) (clock e).
Definition set_kbd (b : list ascii) (e : Env) : Env :=
  mkEnv (draws e) (cursor e) b (clock e).
Definition set_clock (c : list event) (e : Env) : Env :=
  mkEnv (draws e) (cursor e) (kbd e) c.

(** A running program: the game object and the world around it. *)
Definition World : Type := (Game * Env)%type.

(** Run a computation on the world alone from inside a method. *)
Definition lift_env {A} (m : M Env A) : M World A :=
  fun w =>
    match m (snd w) with
    | (r, e') => (r, (fst w, e'))
    end.

Definition self : M World Game := fun w => (Ret (fst w), w).
Definition assign (f : Game -> Game) : M World unit :=
  fun w => (Ret tt, (f (fst w), snd w)).

(** ** [random.randint] *)

(** [random.randint(a, b)] returns an integer of [a..b] and raises
    [ValueError] when the range is empty.  The generator itself is library
    code; the embedding takes the next raw draw and reduces it into the
    range, so every value of the range can come out and no other. *)
Definition randint (a b : Z) : M Env Z :=
  fun e =>
    if b <? a then (Raise ValueError, e)
    else (Ret (a + (draws e (cursor e)) mod (b - a + 1)),
          set_cursor (S (cursor e)) e).

(** ** [generate_food] *)

(** [while True:] draw a cell of the interior; return it when the snake is
    not on it.  [fuel] bounds the number of rounds of the loop. *)
Fixpoint generate_food (w h : Z) (body : list Position) (fuel : nat)
  : M Env Position :=
  match fuel with
  | O => hang
  | S fuel' =>
      x <- randint 1 (w - 2) ;;
      y <- randint 1 (h - 2) ;;
      if negb (mem (x, y) body) then ret (x, y)
      else generate_food w h body fuel'
  end.

(** ** [__init__] *)

(** The constructor: [food] is drawn when [width], [height], [snake] and
    [direction] are set; [score] and [game_over] are set afterwards. *)
Definition init (w h : Z) (fuel : nat) : M Env Game :=
  let body := [(w / 2, h / 2)] in
  f <- generate_food w h body fuel ;;
  ret (mkGame w h body (1, 0) f 0 false).

(** The default construction [SnakeGame()]. *)
Definition init_default (fuel : nat) : M Env Game := init 40 20 fuel.

(** ** [get_input] *)

(** [msvcrt.kbhit()]: is a byte waiting? *)
Definition kbhit : M Env bool :=
  fun e => (Ret (match kbd e with [] => false | _ :: _ => true end), e).

(** [msvcrt.getch()]: take the next byte; with nothing buffered the call
    waits for a key press, which the buffer at hand does not hold. *)
Definition getch : M Env ascii :=
  fun e =>
    match kbd e with
    | [] => (Hang, e)
    | c :: rest => (Ret c, set_kbd rest e)
    end.

(** [str.lower()], a character at a time (ASCII letters only are met,
    see [decode]). *)
Definition lower_char (c : ascii) : ascii :=
  let n := N_of_ascii c in
  if ((65 <=? n) && (n <=? 90))%N then ascii_of_N (n + 32) else c.

Fixpoint lower (s : string) : string :=
  match s with
  | EmptyString => EmptyString
  | String c s' => String (lower_char c) (lower s')
  end.

(** [key.decode('utf-8')] on a single byte: bytes below 0x80 are one
    character, the others are not valid UTF-8 on their own. *)
Definition decode {S} (c : ascii) : M S string :=
  if (N_of_ascii c <? 128)%N then ret (String c EmptyString)
  else raise UnicodeDecodeError.

Definition arrow_prefix : ascii := "224"%char. (* b'\xe0' *)

Definition get_input : M Env (option string) :=
  hit <- kbhit ;;
  if hit : bool then
    key <- getch ;;
    if Ascii.eqb key arrow_prefix then
      key <- getch ;;
      if Ascii.eqb key "H" then ret (Some "w"%string)
      else if Ascii.eqb key "P" then ret (Some "s"%string)
      else if Ascii.eqb key "K" then ret (Some "a"%string)
      else if Ascii.eqb key "M" then ret (Some "d"%string)
      else ret None
    else
      s <- decode key ;;
      ret (Some (lower s))
  else ret None.

(** ** [update_direction] *)

(** The dictionary [directions], in the order it is written. *)
Definition directions : list (string * Position) :=
  [ ("w"%string, (0, -1));   (* Up *)
    ("s"%string, (0, 1));    (* Down *)
    ("a"%string, (-1, 0));   (* Left *)
    ("d"%string, (1, 0)) ].  (* Right *)

(** [d[key]] when [key in d]. *)
Fixpoint lookup (key : string) (d : list (string * Position))
  : option Position :=
  match d with
  | [] => None
  | (k, v) :: d' => if String.eqb key k then Some v else lookup key d'
  end.

Definition update_direction (key : string) : M World unit :=
  match lookup key directions with
  | Some new_direction =>
      g <- self ;;
      if negb (pos_eqb (fst new_direction * -1, snd new_direction * -1)
                       (direction g))
      then assign (set_direction new_direction)
      else ret tt
  | None => ret tt
  end.

(** ** [move_snake] *)

(** [self.snake.pop()] *)
Definition pop : M World unit :=
  g <- self ;;
  match snake g with
  | [] => raise IndexError
  | _ :: _ => assign (set_snake (removelast (snake g)))
  end.

(** The wall test of [move_snake]. *)
Definition hits_wall (g : Game) (p : Position) : bool :=
  (fst p <=? 0) || (fst p >=? width g - 1) ||
  (snd p <=? 0) || (snd p >=? height g - 1).

Definition move_snake (fuel : nat) : M World unit :=
  g <- self ;;
  match snake g with
  | [] => raise IndexError
  | (head_x, head_y) :: _ =>
      let new_head :=
        (head_x + fst (direction g), head_y + snd (direction g)) in
      if hits_wall g new_head then assign (set_game_over true)
      else if mem new_head (snake g) then assign (set_game_over true)
      else
        assign (set_snake (new_head :: snake g)) ;;;
        if pos_eqb new_head (food g) then
          assign (fun g => set_score (score g + 10) g) ;;;
          g <- self ;;
          f <- lift_env (generate_food (width g) (height g) (snake g) fuel) ;;
          assign (set_food f)
        else pop
  end.

(** ** The loop of [run] *)

(** Python truth of [key]: [None] and the empty string are false. *)
Definition truthy (key : option string) : bool :=
  match key with
  | Some s => negb (String.eqb s EmptyString)
  | None => false
  end.

(** [key == 'q'] *)
Definition is_quit (key : option string) : bool :=
  match key with
  | Some s => String.eqb s "q"
  | None => false
  end.

(** The input window: [while time.time() - start_time < 0.2:] poll once,
    leave at the first key that is true, otherwise sleep and look at the
    clock again.  [key] is the variable of that name. *)
Fixpoint poll_events (evs : list event) (key : option string)
  : M Env (option string) :=
  match evs with
  | [] => modify (set_clock []) ;;; hang
  | Expire :: evs' => modify (set_clock evs') ;;; ret key
  | Poll arrived :: evs' =>
      modify (fun e => set_clock evs' (set_kbd (kbd e ++ arrived) e)) ;;;
      key <- get_input ;;
      if truthy key then ret key
      else poll_events evs' key
  end.

Definition poll_window : M Env (option string) :=
  fun e => poll_events (clock e) None e.

(** One round of [while not self.game_over:] after the test: [true] when
    the round left the loop through [break].  Drawing only writes to the
    terminal and is left out. *)
Definition run_round (fuel : nat) : M World bool :=
  key <- lift_env poll_window ;;
  if is_quit key then ret true
  else
    (if truthy key
     then match key with
          | Some k => update_direction k
          | None => ret tt
          end
     else ret tt) ;;;
    move_snake fuel ;;;
    ret false.

(** The loop itself; [rounds] bounds the number of rounds. *)
Fixpoint run_loop (rounds fuel : nat) : M World unit :=
  g <- self ;;
  if game_over g then ret tt
  else
    match rounds with
    | O => hang
    | S rounds' =>
        stop <- run_round fuel ;;
        if stop : bool then ret tt else run_loop rounds' fuel
    end.

(** ** [draw] *)

(** Python's [l[i]]: a negative index counts from the end, and an index
    outside [-len(l) .. len(l) - 1] is an [IndexError]. *)
Definition index {A} (l : list A) (i : Z) : option nat :=
  let n := Z.of_nat (List.length l) in
  if (0 <=? i) && (i <? n) then Some (Z.to_nat i)
  else if (- n <=? i) && (i <? 0) then Some (Z.to_nat (n + i))
  else None.

(** [l[i] = v] at a position that exists. *)
Fixpoint update {A} (l : list A) (i : nat) (v : A) : list A :=
  match l, i with
  | [], _ => []
  | _ :: t, O => v :: t
  | a :: t, S i' => a :: update t i' v
  end.

(** [range(n)] *)
Definition range (n : Z) : list Z := map Z.of_nat (seq 0 (Z.to_nat n)).

(** [for a in l: body(a)] *)
Fixpoint for_each {S A} (l : list A) (body : A -> M S unit) : M S unit :=
  match l with
  | [] => ret tt
  | a :: l' => body a ;;; for_each l' body
  end.

(** [enumerate(l)] *)
Definition enumerate {A} (l : list A) : list (nat * A) :=
  combine (seq 0 (List.length l)) l.

(** The local variable [board]: a list of rows of characters. *)
Definition Board : Type := list (list ascii).

(** [[[' ' for _ in range(width)] for _ in range(height)]] *)
Definition blank (w h : Z) : Board :=
  map (fun _ => map (fun _ => " "%char) (range w)) (range h).

(** [board[y][x] = ch] *)
Definition paint (y x : Z) (ch : ascii) : M Board unit :=
  fun b =>
    match index b y with
    | None => (Raise IndexError, b)
    | Some r =>
        let row := nth r b [] in
        match index row x with
        | None => (Raise IndexError, b)
        | Some c => (Ret tt, update b r (update row c ch))
        end
    end.

(** The part of [draw] that fills the board: borders, snake, food. *)
Definition draw_board (g : Game) : M Board unit :=
  for_each (range (width g))
    (fun x => paint 0 x "#" ;;; paint (height g - 1) x "#") ;;;
  for_each (range (height g))
    (fun y => paint y 0 "#" ;;; paint y (width g - 1) "#") ;;;
  for_each (enumerate (snake g))
    (fun ixy =>
       let '(i, (x, y)) := ixy in
       if Nat.eqb i 0 then paint y x "@" else paint y x "*") ;;;
  (let '(fx, fy) := food g in paint fy fx "$").

(** What reaches the terminal: the screen is cleared, a line is printed,
    or the line [An error occurred: ...] is printed for an exception (its
    wording is the library's). *)
Inductive output : Type :=
| Cleared
| Line (s : string)
| Diagnosis (e : exn).

(** A running program and what it has written so far, oldest first. *)
Definition Console : Type := (World * list output)%type.

Definition emit (o : output) : M Console unit :=
  fun c => (Ret tt, (fst c, snd c ++ [o])).

(** [print(s)] *)
Definition print (s : string) : M Console unit := emit (Line s).

(** [clear_screen] *)
Definition clear_screen : M Console unit := emit Cleared.

(** Run a method that writes nothing. *)
Definition on_world {A} (m : M World A) : M Console A :=
  fun c =>
    match m (fst c) with
    | (r, w') => (r, (w', snd c))
    end.

(** [f"{n}"] for an integer. *)
Definition decimal (n : Z) : string := NilZero.string_of_int (Z.to_int n).

Definition draw : M Console unit :=
  clear_screen ;;;
  g <- on_world self ;;
  match draw_board g (blank (width g) (height g)) with
  | (Ret _, board) =>
      for_each board (fun row => print (string_of_list_ascii row)) ;;;
      print ("Score: " ++ decimal (score g)) ;;;
      print "Controls: W/A/S/D or Arrow Keys to move, Q to quit"
  | (Raise e, _) => raise e
  | (Hang, _) => hang
  end.

(** ** [run] *)

(** [while not self.game_over:] with the drawing in. *)
Fixpoint game_loop (rounds fuel : nat) : M Console unit :=
  g <- on_world self ;;
  if game_over g then ret tt
  else
    match rounds with
    | O => hang
    | S rounds' =>
        draw ;;;
        stop <- on_world (run_round fuel) ;;
        if stop : bool then ret tt else game_loop rounds' fuel
    end.

(** The game over screen that ends [run]. *)
Definition game_over_screen : M Console unit :=
  clear_screen ;;;
  print "Game Over!" ;;;
  g <- on_world self ;;
  print ("Final Score: " ++ decimal (score g)) ;;;
  print "Press any key to exit..." ;;;
  on_world (lift_env getch) ;;;
  ret tt.

Definition run (rounds fuel : nat) : M Console unit :=
  print "Welcome to Terminal Snake!" ;;;
  print "Press any key to start..." ;;;
  on_world (lift_env getch) ;;;
  game_loop rounds fuel ;;;
  game_over_screen.

(** ** [main] *)

(** The world and the terminal, once the game object is gone. *)
Definition Session : Type := (Env * list output)%type.

(** [SnakeGame()] then [game.run()], inside [try]. *)
Definition play (rounds fuel : nat) : M Session unit :=
  fun s =>
    match init_default fuel (fst s) with
    | (Ret game, e) =>
        match run rounds fuel ((game, e), snd s) with
        | (r, (w, log)) => (r, (snd w, log))
        end
    | (Raise x, e) => (Raise x, (e, snd s))
    | (Hang, e) => (Hang, (e, snd s))
    end.

(** [except Exception as e:] catches every exception of the embedding;
    a keyboard interrupt comes from outside and is not modelled. *)
Definition main (rounds fuel : nat) : M Session unit :=
  fun s =>
    match play rounds fuel s with
    | (Raise x, (e, log)) =>
        (Ret tt,
         (e, log ++ [Diagnosis x;
                     Line
                       "Make sure you're running this on Windows with Python 3.x"]))
    | other => other
    end.

(** * Vocabulary of the properties *)

(** The vector pointing the other way. *)
Definition opposite (d : Position) : Position := (- fst d, - snd d).

(** The cell in front of the head. *)
Definition ahead (g : Game) (head : Position) : Position :=
  (fst head + fst (direction g), snd head + snd (direction g)).

(** After the new head is in place and the score is raised. *)
Definition grown (g : Game) (head : Position) : Game :=
  set_score (score g + 10) (set_snake (ahead g head :: snake g) g).

(** The interior playable area [1 .. width-2] x [1 .. height-2]. *)
Definition interior (w h : Z) (p : Position) : Prop :=
  1 <= fst p <= w - 2 /\ 1 <= snd p <= h - 2.

(** The cell drawn in round [k] of the loop, counted from the cursor. *)
Definition drawn (w h : Z) (e : Env) (k : nat) : Position :=
  (1 + draws e (cursor e + 2 * k)%nat mod (w - 2),
   1 + draws e (cursor e + 2 * k + 1)%nat mod (h - 2)).

(** The world after one round: two draws were used. *)
Definition advance (e : Env) : Env := set_cursor (S (S (cursor e))) e.

(** The ways [move_snake] can return. *)
Inductive moved (fuel : nat) (g : Game) (e : Env) : Game -> Env -> Prop :=
| moved_wall head rest :
    snake g = head :: rest ->
    hits_wall g (ahead g head) = true ->
    moved fuel g e (set_game_over true g) e
| moved_self head rest :
    snake g = head :: rest ->
    hits_wall g (ahead g head) = false ->
    In (ahead g head) (snake g) ->
    moved fuel g e (set_game_over true g) e
| moved_plain head rest :
    snake g = head :: rest ->
    hits_wall g (ahead g head) = false ->
    ~ In (ahead g head) (snake g) ->
    ahead g head <> food g ->
    moved fuel g e (set_snake (removelast (ahead g head :: snake g)) g) e
| moved_eat head rest f e' :
    snake g = head :: rest ->
    hits_wall g (ahead g head) = false ->
    ~ In (ahead g head) (snake g) ->
    ahead g head = food g ->
    generate_food (width g) (height g) (ahead g head :: snake g) fuel e
      = (Ret f, e') ->
    moved fuel g e (set_food f (grown g head)) e'.

(** One method call on the game object that returns. *)
Inductive step : Game -> Game -> Prop :=
| step_update key g e g' e' :
    update_direction key (g, e) = (Ret tt, (g', e')) -> step g g'
| step_move fuel g e g' e' :
    move_snake fuel (g, e) = (Ret tt, (g', e')) -> step g g'.

(** The games met after construction and any number of such calls. *)
Inductive reachable : Game -> Prop :=
| reach_init w h fuel e g e' :
    init w h fuel e = (Ret g, e') -> reachable g
| reach_step g g' :
    reachable g -> step g g' -> reachable g'.

(** The run of several calls. *)
Inductive steps : Game -> Game -> Prop :=
| steps_refl g : steps g g
| steps_next g g' g'' : steps g g' -> step g' g'' -> steps g g''.

(** The snake has a head, lies on distinct cells, and the food is on none
    of them. *)
Definition well_formed (g : Game) : Prop :=
  snake g <> [] /\ NoDup (snake g) /\ ~ In (food g) (snake g).


(** The four unit steps of the dictionary [directions]. *)
Definition unit_steps : list Position := map snd directions.

(** A board of 3 x 3 at least with every segment and the food in its
    interior. *)
Definition in_bounds (g : Game) : Prop :=
  3 <= width g /\ 3 <= height g /\
  Forall (interior (width g) (height g)) (snake g) /\
  interior (width g) (height g) (food g).

(** Cells that share a side. *)
Definition adjacent (p q : Position) : Prop :=
  Z.abs (fst p - fst q) + Z.abs (snd p - snd q) = 1.

(** Each cell of the list shares a side with the next. *)
Fixpoint linked (l : list Position) : Prop :=
  match l with
  | p :: (q :: _) as t => adjacent p q /\ linked t
  | _ => True
  end.

(** The games met at the head of the loop of [run]: the constructed one,
    and the one a round leaves when it does not leave the loop. *)
Inductive playing : Game -> Prop :=
| playing_init w h fuel e g e' :
    init w h fuel e = (Ret g, e') -> playing g
| playing_round fuel g e g' e' :
    playing g -> game_over g = false ->
    run_round fuel (g, e) = (Ret false, (g', e')) -> playing g'.

(** The upper-case form of a lower-case letter. *)
Definition upper_char (c : ascii) : ascii :=
  ascii_of_N (N_of_ascii c - 32).

(** The arrow-key codes of [get_input] and the keys they stand for. *)
Definition arrow_codes : list (ascii * ascii) :=
  [("H", "w"); ("P", "s"); ("K", "a"); ("M", "d")]%char.

(** The second segment is where the head came from. *)
Definition trails (g : Game) : Prop :=
  match snake g with
  | h :: s :: _ =>
      s = (fst h - fst (direction g), snd h - snd (direction g))
  | _ => True
  end.

(** A source whose first round draws the cell (6, 5) of a 10 x 10 board
    and whose later rounds draw (1, 1); no key is pressed and the first
    window runs out at once. *)
Definition feeding_env : Env :=
  mkEnv (fun n => match n with O => 5 | S O => 4 | _ => 0 end) 0 [] [Expire].

(** The game of the scenario after its first round: the food at (6, 5) is
    eaten, the snake has two segments. *)
Definition fed_game : Game :=
  mkGame 10 10 [(6, 5); (5, 5)] (1, 0) (1, 1) 10 false.

(** ** The frame *)

(** The character at column [x] of row [y] of a board. *)
Definition cell (b : Board) (y x : nat) : ascii :=
  nth x (nth y b []) " "%char.

(** A board of [h] rows of [w] characters. *)
Definition shaped (w h : Z) (b : Board) : Prop :=
  Z.of_nat (List.length b) = h /\
  Forall (fun row => Z.of_nat (List.length row) = w) b.

(** The board with one character replaced. *)
Definition put (b : Board) (y x : nat) (ch : ascii) : Board :=
  update b y (update (nth y b []) x ch).

(** [board[y][x] = ch] for a triple [(y, x, ch)]. *)
Definition stroke (c : Z * Z * ascii) : M Board unit :=
  let '(y, x, ch) := c in paint y x ch.

(** The assignments [draw] makes to the board, in the order it makes
    them. *)
Definition strokes (g : Game) : list (Z * Z * ascii) :=
  flat_map (fun x => [(0, x, "#"%char); (height g - 1, x, "#"%char)])
           (range (width g)) ++
  flat_map (fun y => [(y, 0, "#"%char); (y, width g - 1, "#"%char)])
           (range (height g)) ++
  map (fun ixy : nat * Position =>
         let '(i, (x, y)) := ixy in
         (y, x, if Nat.eqb i 0 then "@"%char else "*"%char))
      (enumerate (snake g)) ++
  [(snd (food g), fst (food g), "$"%char)].

(** What a list of assignments leaves at row [y], column [x], where
    [base] was. *)
Fixpoint inked (cmds : list (Z * Z * ascii)) (y x : Z) (base : ascii)
  : ascii :=
  match cmds with
  | [] => base
  | (cy, cx, ch) :: rest =>
      inked rest y x (if (y =? cy) && (x =? cx) then ch else base)
  end.

(** The character a frame shows at a position: what was written last
    wins, so the food hides the snake, a later segment an earlier one,
    and the snake the border. *)
Definition glyph (g : Game) (p : Position) : ascii :=
  if pos_eqb p (food g) then "$"%char
  else if mem p (tl (snake g)) then "*"%char
  else if mem p (firstn 1 (snake g)) then "@"%char
  else if (fst p =? 0) || (fst p =? width g - 1) ||
          (snd p =? 0) || (snd p =? height g - 1) then "#"%char
  else " "%char.

(** The whole frame. *)
Definition picture (g : Game) : Board :=
  map (fun y => map (fun x => glyph g (x, y)) (range (width g)))
      (range (height g)).

(** The lines [draw] prints for a board and a score. *)
Definition frame (b : Board) (n : Z) : list output :=
  Cleared :: map (fun row => Line (string_of_list_ascii row)) b ++
  [Line ("Score: " ++ decimal n);
   Line "Controls: W/A/S/D or Arrow Keys to move, Q to quit"].

(** A snake lying across the border and under the food. *)
Definition overlapping : Game :=
  mkGame 7 5 [(3, 2); (2, 2); (0, 0); (5, 4)] (1, 0) (2, 2) 10 false.


(** ** Counting the draws *)

(** The integers [1 .. n]. *)
Definition span (n : Z) : list Z := map Z.of_nat (seq 1 (Z.to_nat n)).

(** The cells of the interior, each once. *)
Definition cells (w h : Z) : list Position :=
  list_prod (span (w - 2)) (span (h - 2)).

(** All the ways [n] rounds of draws can fall; with [randint] uniform and
    the draws independent they are equally likely. *)
Fixpoint outcomes (w h : Z) (n : nat) : list (list Position) :=
  match n with
  | O => [[]]
  | S n' => flat_map (fun c => map (cons c) (outcomes w h n')) (cells w h)
  end.

(** A random source whose rounds draw the given cells in order, and the
    cell (1, 1) ever after. *)
Definition scripted (rounds : list Position) : Env :=
  mkEnv (fun i =>
           let c := nth (i / 2) rounds (1, 1) in
           if Nat.even i then fst c - 1 else snd c - 1)
        0 [] [].

(** Is [generate_food] still in its loop after the given rounds? *)
Definition still_running (w h : Z) (body rounds : list Position) : bool :=
  match fst (generate_food w h body (List.length rounds) (scripted rounds)) with
  | Hang => true
  | _ => false
  end.

(** In how many of the ways [n] rounds can fall the loop is still running. *)
Definition stuck_count (w h : Z) (body : list Position) (n : nat) : nat :=
  List.length (filter (still_running w h body) (outcomes w h n)).

(** ** Worked states used to exercise the theorems *)

(** A random source that walks through the raw values 0, 1, 2, ... *)
Definition counting_env (keys : list ascii) (evs : list event) : Env :=
  mkEnv (fun n => Z.of_nat n) 0 keys evs.

(** The default board right after construction with that source. *)
Definition fresh_game : Game :=
  mkGame 40 20 [(20, 10)] (1, 0) (1, 2) 0 false.

(** A snake one step from the right wall of a 10 x 10 board. *)
Definition at_the_wall : Game :=
  mkGame 10 10 [(8, 5); (7, 5)] (1, 0) (3, 3) 20 false.

(** A game already lost at the wall. *)
Definition lost_game : Game := set_game_over true at_the_wall.

(** A snake curled on a 2 x 2 square, the head about to reach the tail. *)
Definition curled : Game :=
  mkGame 10 10 [(2, 2); (2, 3); (3, 3); (3, 2)] (1, 0) (6, 6) 30 false.

(** The snake of the specification's scenario: at (5,5) on a 10 x 10
    board, heading right, the food right in front of it. *)
Definition before_food : Game :=
  mkGame 10 10 [(5, 5)] (1, 0) (6, 5) 0 false.

(** The same snake with the food elsewhere. *)
Definition before_gap : Game :=
  mkGame 10 10 [(5, 5)] (1, 0) (2, 2) 0 false.

(** A source whose rounds sweep a 2 x 2 interior cell by cell. *)
Definition sweeping_env : Env :=
  mkEnv (fun n => if Nat.even n then Z.of_nat (n / 2) else Z.of_nat (n / 4))
        0 [] [].

(** A 3 x 4 board, two interior cells: the snake on one, heading up
    towards the food on the other. *)
Definition last_bite : Game :=
  mkGame 3 4 [(1, 2)] (0, -1) (1, 1) 0 false.

(** * Properties *)

(** ** Basic facts about positions and lists *)

Lemma pos_eqb_eq (p q : Position) : pos_eqb p q = true <-> p = q.
Proof.
  destruct p as [px py], q as [qx qy]; unfold pos_eqb; simpl.
  rewrite andb_true_iff, !Z.eqb_eq.
  split; [intros [-> ->]; reflexivity | intros [= -> ->]; auto].
Qed.

Lemma pos_eqb_neq (p q : Position) : pos_eqb p q = false <-> p <> q.
Proof.
  rewrite <- pos_eqb_eq. destruct (pos_eqb p q); split; congruence.
Qed.

Lemma mem_In (p : Position) (l : list Position) : mem p l = true <-> In p l.
Proof.
  unfold mem. rewrite existsb_exists. split.
  - intros (q & Hq & Heq). apply pos_eqb_eq in Heq. now subst.
  - intros Hin. exists p. split; [assumption | now apply pos_eqb_eq].
Qed.

Lemma mem_not_In (p : Position) (l : list Position) :
  mem p l = false <-> ~ In p l.
Proof.
  rewrite <- mem_In. destruct (mem p l); split; congruence.
Qed.

Lemma In_removelast {A} (x : A) (l : list A) :
  In x (removelast l) -> In x l.
Proof.
  induction l as [|a [|b l] IH]; simpl; intros H; auto.
  destruct H as [H | H]; [now left | right; exact (IH H)].
Qed.

Lemma NoDup_removelast {A} (l : list A) : NoDup l -> NoDup (removelast l).
Proof.
  induction 1 as [|a l Hnotin Hnd IH]; simpl; [constructor|].
  destruct l as [|b l]; [constructor|].
  constructor; [|exact IH].
  intros Hin. apply Hnotin. now apply In_removelast.
Qed.

Lemma length_removelast_cons {A} (a : A) (l : list A) :
  List.length (removelast (a :: l)) = List.length l.
Proof.
  revert a; induction l as [|b l IH]; intros a; [reflexivity|].
  change (removelast (a :: b :: l)) with (a :: removelast (b :: l)).
  cbn [List.length]. now rewrite (IH b).
Qed.

(** ** The shape of [move_snake] on a non-empty snake *)

Lemma hits_wall_true (g : Game) (p : Position) :
  hits_wall g p = true <->
  fst p <= 0 \/ fst p >= width g - 1 \/ snd p <= 0 \/ snd p >= height g - 1.
Proof.
  unfold hits_wall. rewrite !orb_true_iff, !Z.leb_le, !Z.geb_le. lia.
Qed.

Lemma hits_wall_false (g : Game) (p : Position) :
  hits_wall g p = false <->
  0 < fst p < width g - 1 /\ 0 < snd p < height g - 1.
Proof.
  destruct (hits_wall g p) eqn:E.
  - apply hits_wall_true in E. split; [discriminate | lia].
  - split; [intros _ | reflexivity].
    assert (H : ~ (fst p <= 0 \/ fst p >= width g - 1 \/
                   snd p <= 0 \/ snd p >= height g - 1)).
    { intros H. apply hits_wall_true in H. congruence. }
    lia.
Qed.

Lemma move_snake_wall fuel g e head rest :
  snake g = head :: rest ->
  hits_wall g (ahead g head) = true ->
  move_snake fuel (g, e) = (Ret tt, (set_game_over true g, e)).
Proof.
  intros Hs Hw. destruct head as [hx hy].
  unfold move_snake, bind, self; simpl. rewrite Hs.
  unfold ahead in Hw; simpl in Hw. rewrite Hw. reflexivity.
Qed.

Lemma move_snake_self fuel g e head rest :
  snake g = head :: rest ->
  hits_wall g (ahead g head) = false ->
  mem (ahead g head) (snake g) = true ->
  move_snake fuel (g, e) = (Ret tt, (set_game_over true g, e)).
Proof.
  intros Hs Hw Hm. destruct head as [hx hy].
  unfold move_snake, bind, self; simpl. rewrite Hs.
  unfold ahead in Hw, Hm; simpl in Hw, Hm. rewrite Hs in Hm.
  rewrite Hw, Hm. reflexivity.
Qed.

Lemma move_snake_plain fuel g e head rest :
  snake g = head :: rest ->
  hits_wall g (ahead g head) = false ->
  mem (ahead g head) (snake g) = false ->
  pos_eqb (ahead g head) (food g) = false ->
  move_snake fuel (g, e) =
  (Ret tt, (set_snake (removelast (ahead g head :: snake g)) g, e)).
Proof.
  intros Hs Hw Hm Hf. destruct head as [hx hy].
  unfold move_snake, bind, self; simpl. rewrite Hs.
  unfold ahead in Hw, Hm, Hf; simpl in Hw, Hm, Hf. rewrite Hs in Hm.
  rewrite Hw, Hm. unfold assign; simpl. rewrite Hf.
  unfold pop, bind, self, assign; simpl. reflexivity.
Qed.

Lemma move_snake_eat fuel g e head rest :
  snake g = head :: rest ->
  hits_wall g (ahead g head) = false ->
  mem (ahead g head) (snake g) = false ->
  pos_eqb (ahead g head) (food g) = true ->
  move_snake fuel (g, e) =
  match generate_food (width g) (height g) (ahead g head :: snake g) fuel e
  with
  | (Ret f, e') => (Ret tt, (set_food f (grown g head), e'))
  | (Raise x, e') => (Raise x, (grown g head, e'))
  | (Hang, e') => (Hang, (grown g head, e'))
  end.
Proof.
  intros Hs Hw Hm Hf. destruct head as [hx hy].
  unfold move_snake, bind, self; simpl. rewrite Hs.
  unfold ahead in Hw, Hm, Hf; simpl in Hw, Hm, Hf. rewrite Hs in Hm.
  rewrite Hw, Hm. unfold assign; simpl. rewrite Hf.
  unfold lift_env, grown, ahead; simpl. rewrite Hs.
  destruct (generate_food _ _ _ _ _) as [[f|x|] e']; reflexivity.
Qed.

(** ** [generate_food]: one round at a time *)

Lemma randint_1 (n : Z) (e : Env) :
  1 <= n ->
  randint 1 n e =
  (Ret (1 + draws e (cursor e) mod n), set_cursor (S (cursor e)) e).
Proof.
  intros Hn. unfold randint.
  destruct (n <? 1) eqn:E; [apply Z.ltb_lt in E; lia|].
  replace (n - 1 + 1) with n by lia. reflexivity.
Qed.

Lemma randint_empty (a b : Z) (e : Env) :
  b < a -> randint a b e = (Raise ValueError, e).
Proof.
  intros H. unfold randint. apply Z.ltb_lt in H. now rewrite H.
Qed.

Lemma generate_food_round w h body fuel e :
  1 <= w - 2 -> 1 <= h - 2 ->
  generate_food w h body (S fuel) e =
  if mem (drawn w h e 0) body
  then generate_food w h body fuel (advance e)
  else (Ret (drawn w h e 0), advance e).
Proof.
  intros Hw Hh. cbn [generate_food]. unfold bind at 1.
  rewrite (randint_1 _ e Hw). unfold bind at 1.
  rewrite (randint_1 _ _ Hh). cbn [set_cursor cursor draws].
  unfold drawn. cbn [Nat.mul]. rewrite Nat.add_0_r, Nat.add_1_r.
  destruct (mem _ body); reflexivity.
Qed.

Lemma generate_food_no_columns w h body fuel e :
  w - 2 < 1 ->
  generate_food w h body (S fuel) e = (Raise ValueError, e).
Proof.
  intros Hw. cbn [generate_food]. unfold bind at 1.
  now rewrite (randint_empty _ _ e Hw).
Qed.

Lemma generate_food_no_rows w h body fuel e :
  1 <= w - 2 -> h - 2 < 1 ->
  generate_food w h body (S fuel) e =
  (Raise ValueError, set_cursor (S (cursor e)) e).
Proof.
  intros Hw Hh. cbn [generate_food]. unfold bind at 1.
  rewrite (randint_1 _ e Hw). unfold bind at 1.
  now rewrite (randint_empty _ _ _ Hh).
Qed.

Lemma drawn_interior w h e k :
  1 <= w - 2 -> 1 <= h - 2 -> interior w h (drawn w h e k).
Proof.
  intros Hw Hh. unfold interior, drawn; cbn [fst snd].
  pose proof (Z.mod_pos_bound (draws e (cursor e + 2 * k)%nat) (w - 2)).
  pose proof (Z.mod_pos_bound (draws e (cursor e + 2 * k + 1)%nat) (h - 2)).
  lia.
Qed.

Lemma drawn_advance w h e k :
  drawn w h (advance e) k = drawn w h e (S k).
Proof.
  unfold drawn, advance; cbn [cursor draws set_cursor].
  replace (S (S (cursor e)) + 2 * k)%nat
    with (cursor e + 2 * S k)%nat by lia.
  reflexivity.
Qed.

(** Whatever [generate_food] returns is a free cell of the interior. *)
Lemma generate_food_sound w h body fuel :
  forall e p e',
    generate_food w h body fuel e = (Ret p, e') ->
    interior w h p /\ ~ In p body.
Proof.
  induction fuel as [|fuel IH]; intros e p e' H; [discriminate|].
  destruct (Z_lt_le_dec (w - 2) 1) as [Hw | Hw].
  { rewrite generate_food_no_columns in H by assumption. discriminate. }
  destruct (Z_lt_le_dec (h - 2) 1) as [Hh | Hh].
  { rewrite generate_food_no_rows in H by assumption. discriminate. }
  rewrite generate_food_round in H by assumption.
  destruct (mem (drawn w h e 0) body) eqn:Hm.
  - exact (IH _ _ _ H).
  - injection H as <- _. split.
    + now apply drawn_interior.
    + now apply mem_not_In.
Qed.

(** The loop returns as soon as a round draws a free cell. *)
Lemma generate_food_returns w h body :
  1 <= w - 2 -> 1 <= h - 2 ->
  forall k e,
    ~ In (drawn w h e k) body ->
    exists p e', generate_food w h body (S k) e = (Ret p, e').
Proof.
  intros Hw Hh. induction k as [|k IH]; intros e Hfree.
  - rewrite generate_food_round by assumption.
    apply mem_not_In in Hfree. rewrite Hfree. eauto.
  - rewrite generate_food_round by assumption.
    destruct (mem (drawn w h e 0) body); [|eauto].
    apply IH. now rewrite drawn_advance.
Qed.

(** With no free cell in the interior the loop never returns. *)
Lemma generate_food_starved w h body :
  (forall p, interior w h p -> In p body) ->
  forall fuel e p e', generate_food w h body fuel e <> (Ret p, e').
Proof.
  intros Hfull fuel e p e' H.
  destruct (generate_food_sound _ _ _ _ _ _ _ H) as [Hi Hn]. auto.
Qed.

(** On such a board every round draws an occupied cell, and the loop is
    still running whatever the fuel. *)
Lemma generate_food_full w h body :
  1 <= w - 2 -> 1 <= h - 2 ->
  (forall p, interior w h p -> In p body) ->
  forall fuel e, fst (generate_food w h body fuel e) = Hang.
Proof.
  intros Hw Hh Hfull. induction fuel as [|fuel IH]; intros e; [reflexivity|].
  rewrite generate_food_round by assumption.
  assert (Hm : mem (drawn w h e 0) body = true).
  { apply mem_In, Hfull. now apply drawn_interior. }
  rewrite Hm. apply IH.
Qed.

(** ** [generate_food]: how many draws keep it going *)

Lemma In_span (n x : Z) : In x (span n) <-> 1 <= x <= n.
Proof.
  unfold span. rewrite in_map_iff. split.
  - intros (i & <- & Hi). apply in_seq in Hi. lia.
  - intros Hx. exists (Z.to_nat x). split; [lia|]. apply in_seq. lia.
Qed.

Lemma In_cells (w h : Z) (p : Position) :
  In p (cells w h) <-> interior w h p.
Proof.
  destruct p as [x y]. unfold cells, interior. cbn [fst snd].
  rewrite <- !In_span. split; intros H.
  - now apply in_prod_iff in H.
  - now apply in_prod_iff.
Qed.

Lemma drawn_scripted w h rounds k :
  1 <= w - 2 -> 1 <= h - 2 ->
  Forall (interior w h) rounds ->
  drawn w h (scripted rounds) k = nth k rounds (1, 1).
Proof.
  intros Hw Hh Hall. unfold drawn, scripted; cbn [draws cursor Nat.add].
  assert (He : Nat.even (2 * k) = true)
    by (rewrite Nat.even_mul; reflexivity).
  assert (Ho : Nat.even (2 * k + 1) = false)
    by (rewrite Nat.even_add, He; reflexivity).
  assert (Hd : (2 * k / 2 = k)%nat)
    by (rewrite Nat.mul_comm; apply Nat.div_mul; discriminate).
  assert (Hd' : ((2 * k + 1) / 2 = k)%nat).
  { rewrite (Nat.mul_comm 2 k), Nat.div_add_l by discriminate.
    cbn. lia. }
  rewrite He, Ho, Hd, Hd'.
  assert (Hc : interior w h (nth k rounds (1, 1))).
  { destruct (Nat.lt_ge_cases k (List.length rounds)) as [Hk | Hk].
    - rewrite Forall_forall in Hall. apply Hall. now apply nth_In.
    - rewrite nth_overflow by assumption. unfold interior; simpl; lia. }
  destruct (nth k rounds (1, 1)) as [x y]. destruct Hc as [Hx Hy].
  cbn [fst snd] in *.
  rewrite !Z.mod_small by lia. f_equal; lia.
Qed.

(** What [generate_food] does depends on the source only through the
    cells it will draw. *)
Lemma generate_food_ext w h body fuel :
  forall e e',
    (forall k, drawn w h e k = drawn w h e' k) ->
    fst (generate_food w h body fuel e) = fst (generate_food w h body fuel e').
Proof.
  induction fuel as [|fuel IH]; intros e e' Hsame; [reflexivity|].
  destruct (Z_lt_le_dec (w - 2) 1) as [Hw | Hw].
  { now rewrite !generate_food_no_columns by assumption. }
  destruct (Z_lt_le_dec (h - 2) 1) as [Hh | Hh].
  { now rewrite !generate_food_no_rows by assumption. }
  rewrite !generate_food_round by assumption. rewrite <- (Hsame 0%nat).
  destruct (mem (drawn w h e 0) body); [|reflexivity].
  apply IH. intros k. now rewrite !drawn_advance.
Qed.

Lemma still_running_cons w h body c rounds :
  1 <= w - 2 -> 1 <= h - 2 ->
  interior w h c -> Forall (interior w h) rounds ->
  still_running w h body (c :: rounds) =
  mem c body && still_running w h body rounds.
Proof.
  intros Hw Hh Hc Hall. unfold still_running. cbn [List.length].
  rewrite generate_food_round by assumption.
  rewrite (drawn_scripted w h (c :: rounds) 0) by (try constructor; assumption).
  cbn [nth]. destruct (mem c body); [|reflexivity].
  cbn [andb].
  rewrite (generate_food_ext w h body (List.length rounds)
             (advance (scripted (c :: rounds))) (scripted rounds));
    [reflexivity|].
  intros k. rewrite drawn_advance.
  rewrite !drawn_scripted by (try constructor; assumption). reflexivity.
Qed.

Lemma outcomes_interior w h n :
  forall rounds, In rounds (outcomes w h n) -> Forall (interior w h) rounds.
Proof.
  induction n as [|n IH]; intros rounds Hin.
  - destruct Hin as [<- | []]. constructor.
  - cbn [outcomes] in Hin. apply in_flat_map in Hin as (c & Hc & Hin).
    apply in_map_iff in Hin as (r & <- & Hr).
    constructor; [now apply In_cells | now apply IH].
Qed.

Lemma filter_cons_map_length {A} (P : list A -> bool) (occ : A -> bool)
      (Q : list A -> bool) (c : A) (L : list (list A)) :
  (forall r, In r L -> P (c :: r) = occ c && Q r) ->
  List.length (filter P (map (cons c) L)) =
  if occ c then List.length (filter Q L) else 0%nat.
Proof.
  induction L as [|r L IH]; intros HP.
  - destruct (occ c); reflexivity.
  - cbn [map filter]. rewrite (HP r) by now left.
    assert (IH' := IH (fun r' Hr' => HP r' (or_intror Hr'))).
    destruct (occ c); cbn [andb].
    + destruct (Q r); cbn [List.length]; now rewrite IH'.
    + exact IH'.
Qed.

Lemma filter_flat_map_length {A} (P : list A -> bool) (occ : A -> bool)
      (Q : list A -> bool) (cs : list A) (L : list (list A)) :
  (forall c r, In c cs -> In r L -> P (c :: r) = occ c && Q r) ->
  List.length (filter P (flat_map (fun c => map (cons c) L) cs)) =
  (List.length (filter occ cs) * List.length (filter Q L))%nat.
Proof.
  induction cs as [|c cs IH]; intros HP; [reflexivity|].
  cbn [flat_map filter]. rewrite filter_app, length_app.
  rewrite (filter_cons_map_length P occ Q c L)
    by (intros r Hr; apply HP; [now left | assumption]).
  rewrite IH by (intros c' r Hc' Hr; apply HP; [now right | assumption]).
  destruct (occ c); cbn [List.length]; lia.
Qed.

(** The loop is still running after [n] rounds in exactly those outcomes
    whose [n] cells are all occupied. *)
Lemma stuck_count_pow w h body n :
  1 <= w - 2 -> 1 <= h - 2 ->
  stuck_count w h body n =
  (List.length (filter (fun c => mem c body) (cells w h)) ^ n)%nat.
Proof.
  intros Hw Hh. unfold stuck_count. induction n as [|n IH]; [reflexivity|].
  cbn [outcomes].
  rewrite (filter_flat_map_length _ (fun c => mem c body)
             (still_running w h body)).
  - rewrite IH. cbn [Nat.pow]. reflexivity.
  - intros c r Hc Hr. apply still_running_cons; try assumption.
    + now apply In_cells.
    + eapply outcomes_interior; eassumption.
Qed.

Lemma length_flat_map_cons {A} (cs : list A) (L : list (list A)) :
  List.length (flat_map (fun c => map (cons c) L) cs) =
  (List.length cs * List.length L)%nat.
Proof.
  induction cs as [|c cs IH]; [reflexivity|].
  cbn [flat_map List.length]. rewrite length_app, length_map, IH. lia.
Qed.

Lemma length_outcomes w h n :
  List.length (outcomes w h n) = (List.length (cells w h) ^ n)%nat.
Proof.
  induction n as [|n IH]; [reflexivity|].
  cbn [outcomes Nat.pow]. now rewrite length_flat_map_cons, IH.
Qed.

Lemma filter_length_lt {A} (f : A -> bool) (x : A) (l : list A) :
  In x l -> f x = false ->
  (List.length (filter f l) < List.length l)%nat.
Proof.
  intros Hin Hx. induction l as [|a l IH]; [destruct Hin|].
  pose proof (filter_length_le f l) as Hle.
  cbn [filter]. destruct Hin as [-> | Hin].
  - rewrite Hx. cbn [List.length]. lia.
  - specialize (IH Hin). destruct (f a); cbn [List.length]; lia.
Qed.

(** A ratio below one, raised high enough, falls under any bound. *)
Lemma pow_ratio_vanishes (a N m : nat) :
  (a < N)%nat -> exists n, (m * a ^ n <= N ^ n)%nat.
Proof.
  intros Hlt.
  assert (Hb : forall n, (a ^ n * (a + n) <= a * N ^ n)%nat).
  { induction n as [|n IH]; [cbn; lia|].
    cbn [Nat.pow].
    assert (H1 : (a * (a ^ n * (a + n)) + a ^ n * a
                  <= (a + 1) * (a ^ n * (a + n)))%nat) by nia.
    assert (H2 : ((a + 1) * (a ^ n * (a + n)) <= N * (a * N ^ n))%nat).
    { apply Nat.mul_le_mono; [lia | exact IH]. }
    nia. }
  destruct a as [|a].
  - exists 1%nat. cbn. lia.
  - exists (m * S a)%nat. specialize (Hb (m * S a)%nat).
    assert (H : (S a ^ (m * S a) * (S a + m * S a)
                 = S a * (S m * S a ^ (m * S a)))%nat) by nia.
    rewrite H in Hb. apply Nat.mul_le_mono_pos_l in Hb; [|lia].
    nia.
Qed.

(** ** The ways the methods return *)

Lemma update_direction_cases key g e :
  update_direction key (g, e) = (Ret tt, (g, e)) \/
  exists d, In (key, d) directions /\
            update_direction key (g, e) = (Ret tt, (set_direction d g, e)).
Proof.
  unfold update_direction, directions; simpl.
  destruct (String.eqb key "w") eqn:Ew;
    [apply String.eqb_eq in Ew; subst|
  destruct (String.eqb key "s") eqn:Es;
    [apply String.eqb_eq in Es; subst|
  destruct (String.eqb key "a") eqn:Ea;
    [apply String.eqb_eq in Ea; subst|
  destruct (String.eqb key "d") eqn:Ed;
    [apply String.eqb_eq in Ed; subst|]]]];
    try (now left);
    unfold bind, self; cbn [fst snd];
    match goal with
    | |- context [negb ?b] => destruct b
    end; cbn [negb]; try (now left);
    right; eexists; (split; [|reflexivity]); simpl; tauto.
Qed.

Lemma move_snake_empty fuel g e :
  snake g = [] -> move_snake fuel (g, e) = (Raise IndexError, (g, e)).
Proof.
  intros Hs. unfold move_snake, bind, self; simpl. now rewrite Hs.
Qed.

Lemma move_snake_inv fuel g e g' e' :
  move_snake fuel (g, e) = (Ret tt, (g', e')) -> moved fuel g e g' e'.
Proof.
  intros H. destruct (snake g) as [|head rest] eqn:Hs.
  { rewrite move_snake_empty in H by assumption. discriminate. }
  destruct (hits_wall g (ahead g head)) eqn:Hw.
  { rewrite (move_snake_wall _ _ _ _ _ Hs Hw) in H.
    injection H as <- <-. eapply moved_wall; eassumption. }
  destruct (mem (ahead g head) (snake g)) eqn:Hm.
  { rewrite (move_snake_self _ _ _ _ _ Hs Hw Hm) in H.
    injection H as <- <-. apply mem_In in Hm. eapply moved_self; eassumption. }
  destruct (pos_eqb (ahead g head) (food g)) eqn:Hf.
  - rewrite (move_snake_eat _ _ _ _ _ Hs Hw Hm Hf) in H.
    destruct (generate_food _ _ _ _ _) as [[f|x|] e1] eqn:Hg;
      try discriminate.
    injection H as <- <-.
    apply mem_not_In in Hm. apply pos_eqb_eq in Hf.
    eapply moved_eat; eassumption.
  - rewrite (move_snake_plain _ _ _ _ _ Hs Hw Hm Hf) in H.
    injection H as <- <-.
    apply mem_not_In in Hm. apply pos_eqb_neq in Hf.
    eapply moved_plain; eassumption.
Qed.

(** ** States a program can be in *)

Lemma reachable_steps g g' : reachable g -> steps g g' -> reachable g'.
Proof.
  intros Hr Hs. induction Hs; [assumption|].
  eapply reach_step; [apply IHHs; assumption | eassumption].
Qed.

Lemma init_inv w h fuel e g e' :
  init w h fuel e = (Ret g, e') ->
  exists f,
    generate_food w h [(w / 2, h / 2)] fuel e = (Ret f, e') /\
    g = mkGame w h [(w / 2, h / 2)] (1, 0) f 0 false.
Proof.
  unfold init, bind.
  destruct (generate_food _ _ _ _ _) as [[f|x|] e1]; try discriminate.
  unfold ret. intros [= <- <-]. eauto.
Qed.

(** A round of the loop is made of method calls. *)
Lemma run_round_steps fuel g e stop g' e' :
  run_round fuel (g, e) = (Ret stop, (g', e')) -> steps g g'.
Proof.
  unfold run_round, bind at 1, lift_env; cbn [fst snd].
  destruct (poll_window e) as [[key|x|] e1]; try discriminate.
  destruct (is_quit key).
  { intros [= _ <- _]. constructor. }
  unfold bind at 1.
  assert (Hu : exists g1,
             (if truthy key
              then match key with
                   | Some k => update_direction k
                   | None => ret tt
                   end
              else ret tt) (g, e1) = (Ret tt, (g1, e1)) /\ steps g g1).
  { destruct (truthy key); [destruct key as [k|]|];
      try (exists g; split; [reflexivity | constructor]).
    destruct (update_direction_cases k g e1) as [H | (d & _ & H)].
    - exists g. split; [assumption | constructor].
    - exists (set_direction d g). split; [assumption|].
      eapply steps_next; [constructor | eapply step_update; eassumption]. }
  destruct Hu as (g1 & -> & Hs).
  unfold bind at 1.
  destruct (move_snake fuel (g1, e1)) as [[[]|x|] [g2 e2]] eqn:Hm;
    try discriminate.
  intros [= _ <- _].
  eapply steps_next; [eassumption | eapply step_move; eassumption].
Qed.

(** So a round of the loop started in a reachable game ends in one. *)
Lemma run_round_reachable fuel g e stop g' e' :
  reachable g ->
  run_round fuel (g, e) = (Ret stop, (g', e')) -> reachable g'.
Proof.
  intros Hr H. eapply reachable_steps; [exact Hr|].
  eapply run_round_steps; eassumption.
Qed.

(** ** Invariants of the game object *)

Lemma NoDup_single {A} (a : A) : NoDup [a].
Proof. constructor; [intros [] | constructor]. Qed.

Lemma init_well_formed w h fuel e g e' :
  init w h fuel e = (Ret g, e') -> well_formed g.
Proof.
  intros H. apply init_inv in H as (f & Hf & ->).
  apply generate_food_sound in Hf as [_ Hf].
  repeat split; cbn [snake food];
    [discriminate | apply NoDup_single | exact Hf].
Qed.

Lemma moved_well_formed fuel g e g' e' :
  moved fuel g e g' e' -> well_formed g -> well_formed g'.
Proof.
  intros Hm (Hne & Hnd & Hfood).
  destruct Hm as [head rest Hs Hw | head rest Hs Hw Hin
                 | head rest Hs Hw Hin Hf | head rest f e' Hs Hw Hin Hf Hg];
    unfold well_formed; cbn [snake food set_game_over set_snake set_food
                             set_score grown];
    try (repeat split; assumption).
  - (* an ordinary move *)
    rewrite Hs in *. repeat split.
    + destruct rest; discriminate.
    + apply NoDup_removelast. now constructor.
    + intros Hin'. apply In_removelast in Hin'.
      destruct Hin' as [Heq | Hin']; [now apply Hf | now apply Hfood].
  - (* the food is eaten *)
    apply generate_food_sound in Hg as [_ Hg].
    repeat split; [discriminate | now constructor | exact Hg].
Qed.

Lemma step_well_formed g g' : step g g' -> well_formed g -> well_formed g'.
Proof.
  intros Hst Hwf. destruct Hst as [key g e g' e' H | fuel g e g' e' H].
  - destruct (update_direction_cases key g e) as [H' | (d & _ & H')];
      rewrite H' in H; injection H as <- _; exact Hwf.
  - apply move_snake_inv in H. eapply moved_well_formed; eassumption.
Qed.

Lemma reachable_well_formed g : reachable g -> well_formed g.
Proof.
  induction 1 as [w h fuel e g e' H | g g' _ IH Hst].
  - eapply init_well_formed; eassumption.
  - eapply step_well_formed; eassumption.
Qed.

(** Segments stay distinct whatever way [move_snake] ends, also when it
    is left waiting for a new food cell. *)
Lemma move_snake_NoDup fuel g e :
  NoDup (snake g) -> NoDup (snake (fst (snd (move_snake fuel (g, e))))).
Proof.
  intros Hnd. destruct (snake g) as [|head rest] eqn:Hs.
  { rewrite move_snake_empty by assumption. cbn [fst snd]. now rewrite Hs. }
  destruct (hits_wall g (ahead g head)) eqn:Hw.
  { rewrite (move_snake_wall _ _ _ _ _ Hs Hw). cbn. now rewrite Hs. }
  destruct (mem (ahead g head) (snake g)) eqn:Hm.
  { rewrite (move_snake_self _ _ _ _ _ Hs Hw Hm). cbn. now rewrite Hs. }
  assert (Hgrow : NoDup (ahead g head :: snake g)).
  { apply mem_not_In in Hm. constructor; [assumption | now rewrite Hs]. }
  destruct (pos_eqb (ahead g head) (food g)) eqn:Hf.
  - rewrite (move_snake_eat _ _ _ _ _ Hs Hw Hm Hf).
    destruct (generate_food _ _ _ _ _) as [[f|x|] e1]; exact Hgrow.
  - rewrite (move_snake_plain _ _ _ _ _ Hs Hw Hm Hf).
    cbn [fst snd set_snake snake].
    now apply NoDup_removelast.
Qed.

Lemma fresh_game_constructed :
  init_default 1 (counting_env [] []) =
  (Ret fresh_game, advance (counting_env [] [])).
Proof. reflexivity. Qed.

Lemma fresh_game_reachable : reachable fresh_game.
Proof. eapply reach_init. exact fresh_game_constructed. Qed.

Lemma fed_game_reachable : reachable fed_game.
Proof.
  apply reach_step with (g := before_food).
  - apply reach_init with (w := 10) (h := 10) (fuel := 1%nat)
      (e := feeding_env) (e' := advance feeding_env).
    reflexivity.
  - apply step_move with (fuel := 1%nat) (e := advance feeding_env)
      (e' := advance (advance feeding_env)).
    reflexivity.
Qed.

(** ** The snake never overlaps itself *)

(** C2. In every game reachable from construction by method calls the
    segments of the snake are pairwise distinct, and a tick started there
    leaves them pairwise distinct, however it ends.  This holds whether
    or not [game_over] is set. *)
Theorem snake_segments_distinct (g : Game) :
  reachable g ->
  NoDup (snake g) /\
  forall fuel e, NoDup (snake (fst (snd (move_snake fuel (g, e))))).
Proof.
  intros Hr. apply reachable_well_formed in Hr as (_ & Hnd & _).
  split; [exact Hnd|]. intros fuel e. now apply move_snake_NoDup.
Qed.

Lemma snake_segments_distinct_witness :
  reachable fed_game /\
  NoDup (snake fed_game) /\
  forall fuel e, NoDup (snake (fst (snd (move_snake fuel (fed_game, e))))).
Proof.
  split; [exact fed_game_reachable|].
  exact (snake_segments_distinct fed_game fed_game_reachable).
Defined.

(** ** Collisions *)

(** C3. When the cell in front of the head is on or beyond the border,
    the tick returns with [game_over] set and the snake, the score, the
    direction and the food as they were; nothing else in the world moves
    either. *)
Theorem wall_collision_ends_game
  (fuel : nat) (g : Game) (e : Env) (head : Position) (rest : list Position) :
  snake g = head :: rest ->
  (fst (ahead g head) <= 0 \/ fst (ahead g head) >= width g - 1 \/
   snd (ahead g head) <= 0 \/ snd (ahead g head) >= height g - 1) ->
  exists g',
    move_snake fuel (g, e) = (Ret tt, (g', e)) /\
    game_over g' = true /\
    snake g' = snake g /\ score g' = score g /\
    direction g' = direction g /\ food g' = food g.
Proof.
  intros Hs Hw. apply hits_wall_true in Hw.
  exists (set_game_over true g).
  rewrite (move_snake_wall _ _ _ _ _ Hs Hw). repeat split.
Qed.

Lemma wall_collision_ends_game_witness :
  exists g',
    move_snake 0 (at_the_wall, counting_env [] []) =
      (Ret tt, (g', counting_env [] [])) /\
    game_over g' = true /\
    snake g' = snake at_the_wall /\ score g' = score at_the_wall /\
    direction g' = direction at_the_wall /\ food g' = food at_the_wall.
Proof.
  apply (wall_collision_ends_game 0 at_the_wall (counting_env [] [])
           (8, 5) [(7, 5)]).
  - reflexivity.
  - right; left. vm_compute. discriminate.
Defined.

(** C9. With two segments or more, a head that would step onto the cell
    the tail is on, inside the border, ends the game: the test
    [new_head in self.snake] runs over the whole snake, tail included,
    before any tail is removed. *)
Theorem tail_cell_still_collides
  (fuel : nat) (g : Game) (e : Env) (head : Position) (rest : list Position) :
  snake g = head :: rest ->
  (2 <= List.length (snake g))%nat ->
  ahead g head = last (snake g) head ->
  0 < fst (ahead g head) < width g - 1 ->
  0 < snd (ahead g head) < height g - 1 ->
  exists g',
    move_snake fuel (g, e) = (Ret tt, (g', e)) /\
    game_over g' = true /\ snake g' = snake g /\ score g' = score g.
Proof.
  intros Hs Hlen Htail Hx Hy.
  assert (Hw : hits_wall g (ahead g head) = false)
    by (apply hits_wall_false; auto).
  assert (Hm : mem (ahead g head) (snake g) = true).
  { apply mem_In. rewrite Htail, Hs.
    destruct rest as [|b rest]; [rewrite Hs in Hlen; simpl in Hlen; lia|].
    right. change (last (head :: b :: rest) head) with (last (b :: rest) head).
    destruct (exists_last (l := b :: rest)) as (l' & a & Heq); [discriminate|].
    rewrite Heq, last_last. apply in_or_app. right. now left. }
  exists (set_game_over true g).
  rewrite (move_snake_self _ _ _ _ _ Hs Hw Hm). repeat split.
Qed.

Lemma tail_cell_still_collides_witness :
  exists g',
    move_snake 0 (curled, counting_env [] []) =
      (Ret tt, (g', counting_env [] [])) /\
    game_over g' = true /\ snake g' = snake curled /\ score g' = score curled.
Proof.
  apply (tail_cell_still_collides 0 curled (counting_env [] [])
           (2, 2) [(2, 3); (3, 3); (3, 2)]).
  - reflexivity.
  - simpl. lia.
  - reflexivity.
  - vm_compute. split; reflexivity.
  - vm_compute. split; reflexivity.
Defined.

(** ** Moving and eating *)

(** C4, amended.  When the cell in front of the head is inside the border
    and free of the snake: if it holds the food, the snake is one longer
    and the score ten higher in whatever state the tick leaves; whenever
    [generate_food] hands back a cell the tick returns with that cell, off
    the grown snake, as the new food, and it does so as soon as some round
    draws a free cell.  Otherwise the tick returns with the head moved
    forward, the tail dropped, and length, score and food as before. *)
Theorem move_grows_only_on_food
  (g : Game) (e : Env) (head : Position) (rest : list Position) :
  snake g = head :: rest ->
  0 < fst (ahead g head) < width g - 1 ->
  0 < snd (ahead g head) < height g - 1 ->
  ~ In (ahead g head) (snake g) ->
  (ahead g head = food g ->
     (forall fuel,
        let g' := fst (snd (move_snake fuel (g, e))) in
        snake g' = ahead g head :: snake g /\
        List.length (snake g') = S (List.length (snake g)) /\
        score g' = score g + 10) /\
     (forall fuel f e',
        generate_food (width g) (height g) (ahead g head :: snake g) fuel e
          = (Ret f, e') ->
        move_snake fuel (g, e) = (Ret tt, (set_food f (grown g head), e')) /\
        ~ In f (ahead g head :: snake g)) /\
     (forall k,
        ~ In (drawn (width g) (height g) e k) (ahead g head :: snake g) ->
        exists f e',
          move_snake (S k) (g, e)
            = (Ret tt, (set_food f (grown g head), e')))) /\
  (ahead g head <> food g ->
     forall fuel,
     exists g',
       move_snake fuel (g, e) = (Ret tt, (g', e)) /\
       snake g' = removelast (ahead g head :: snake g) /\
       List.length (snake g') = List.length (snake g) /\
       score g' = score g /\ food g' = food g).
Proof.
  intros Hs Hx Hy Hin.
  assert (Hw : hits_wall g (ahead g head) = false)
    by (apply hits_wall_false; auto).
  apply mem_not_In in Hin as Hm.
  split; intros Hf.
  - apply pos_eqb_eq in Hf.
    split; [|split].
    + intros fuel. rewrite (move_snake_eat _ _ _ _ _ Hs Hw Hm Hf).
      destruct (generate_food _ _ _ _ _) as [[f|x|] e1]; repeat split.
    + intros fuel f e' Hg. rewrite (move_snake_eat _ _ _ _ _ Hs Hw Hm Hf), Hg.
      split; [reflexivity|]. now apply generate_food_sound in Hg.
    + intros k Hk.
      destruct (generate_food_returns (width g) (height g)
                  (ahead g head :: snake g)) with (k := k) (e := e)
        as (f & e' & Hg); [lia | lia | exact Hk |].
      exists f, e'. now rewrite (move_snake_eat _ _ _ _ _ Hs Hw Hm Hf), Hg.
  - apply pos_eqb_neq in Hf. intros fuel.
    exists (set_snake (removelast (ahead g head :: snake g)) g).
    rewrite (move_snake_plain _ _ _ _ _ Hs Hw Hm Hf).
    repeat split. cbn [snake set_snake]. apply length_removelast_cons.
Qed.

Example eating_scenario :
  move_snake 1 (before_food, counting_env [] []) =
  (Ret tt, (mkGame 10 10 [(6, 5); (5, 5)] (1, 0) (1, 2) 10 false,
            advance (counting_env [] []))).
Proof. reflexivity. Qed.

Lemma move_grows_only_on_food_witness :
  (exists f e',
     move_snake 1 (before_food, counting_env [] [])
       = (Ret tt, (set_food f (grown before_food (5, 5)), e'))) /\
  (exists g',
     move_snake 0 (before_gap, counting_env [] [])
       = (Ret tt, (g', counting_env [] [])) /\
     snake g' = removelast (ahead before_gap (5, 5) :: snake before_gap) /\
     List.length (snake g') = List.length (snake before_gap) /\
     score g' = score before_gap /\ food g' = food before_gap).
Proof.
  split.
  - refine (proj2 (proj2 (proj1
      (move_grows_only_on_food before_food (counting_env [] []) (5, 5) []
         eq_refl _ _ _) eq_refl)) O _).
    + vm_compute. split; reflexivity.
    + vm_compute. split; reflexivity.
    + simpl. intros [H | []]. discriminate H.
    + simpl. intros [H | [H | []]]; discriminate H.
  - refine (proj2
      (move_grows_only_on_food before_gap (counting_env [] []) (5, 5) []
         eq_refl _ _ _) _ O).
    + vm_compute. split; reflexivity.
    + vm_compute. split; reflexivity.
    + simpl. intros [H | []]. discriminate H.
    + discriminate.
Defined.

Lemma last_bite_reachable : reachable last_bite.
Proof.
  apply reach_step with (g := mkGame 3 4 [(1, 2)] (1, 0) (1, 1) 0 false).
  - apply reach_init with (w := 3) (h := 4) (fuel := 1%nat)
      (e := sweeping_env) (e' := advance sweeping_env).
    reflexivity.
  - apply step_update with (key := "w"%string)
      (e := sweeping_env) (e' := sweeping_env).
    reflexivity.
Qed.

(** C4, as stated, fails on a board the grown snake fills: in the
    reachable game [last_bite] the cell ahead is inside the border, off the
    snake, and holds the food; the tick grows the snake and raises the
    score, but [generate_food] has no cell to find, so the tick never
    returns and the food is never replaced. *)
Lemma food_not_regenerated_on_full_board :
  reachable last_bite /\
  ahead last_bite (1, 2) = food last_bite /\
  hits_wall last_bite (ahead last_bite (1, 2)) = false /\
  ~ In (ahead last_bite (1, 2)) (snake last_bite) /\
  forall fuel e,
    fst (move_snake fuel (last_bite, e)) = Hang /\
    snake (fst (snd (move_snake fuel (last_bite, e)))) = [(1, 1); (1, 2)] /\
    score (fst (snd (move_snake fuel (last_bite, e)))) = 10 /\
    food (fst (snd (move_snake fuel (last_bite, e)))) = (1, 1).
Proof.
  split; [exact last_bite_reachable|].
  split; [reflexivity|]. split; [reflexivity|].
  split; [simpl; intros [H | []]; discriminate H|].
  intros fuel e.
  rewrite (move_snake_eat fuel last_bite e (1, 2) []
             eq_refl eq_refl eq_refl eq_refl).
  pose proof (generate_food_full 3 4 [(1, 1); (1, 2)]) as Hfull.
  specialize (Hfull ltac:(lia) ltac:(lia)).
  assert (Hall : forall p, interior 3 4 p -> In p [(1, 1); (1, 2)]).
  { intros [x y]. unfold interior; cbn [fst snd]. intros [Hx Hy].
    assert (Ex : x = 1) by lia. assert (Ey : y = 1 \/ y = 2) by lia.
    subst x. destruct Ey as [-> | ->]; simpl; auto. }
  specialize (Hfull Hall fuel e).
  change (width last_bite) with 3. change (height last_bite) with 4.
  change (ahead last_bite (1, 2) :: snake last_bite) with [(1, 1); (1, 2)].
  destruct (generate_food 3 4 [(1, 1); (1, 2)] fuel e) as [[f|x|] e1];
    cbn [fst] in Hfull; try discriminate Hfull.
  repeat split.
Qed.

(** ** Steering *)

Lemma lookup_directions key d :
  In (key, d) directions -> lookup key directions = Some d.
Proof.
  unfold directions. simpl.
  intros [H | [H | [H | [H | []]]]]; injection H as <- <-; reflexivity.
Qed.


(** The test of [update_direction] says: the command is not the reverse
    of the current direction. *)
Lemma reverse_test (d cur : Position) :
  pos_eqb (fst d * -1, snd d * -1) cur = true <-> d = opposite cur.
Proof.
  rewrite pos_eqb_eq. destruct d as [dx dy], cur as [cx cy].
  unfold opposite; simpl.
  split; intros [= H1 H2]; f_equal; lia.
Qed.



(** ** Food placement *)

(** C6. A cell returned by [generate_food] lies in the interior
    [1 .. width-2] x [1 .. height-2] and on no segment of the snake; and in
    every game reachable from construction the food is on no segment. *)
Theorem food_never_on_snake :
  (forall w h body fuel e p e',
     generate_food w h body fuel e = (Ret p, e') ->
     (1 <= fst p <= w - 2 /\ 1 <= snd p <= h - 2) /\ ~ In p body) /\
  (forall g, reachable g -> ~ In (food g) (snake g)).
Proof.
  split.
  - intros w h body fuel e p e' H.
    exact (generate_food_sound _ _ _ _ _ _ _ H).
  - intros g Hr. now apply reachable_well_formed in Hr as (_ & _ & Hf).
Qed.

Lemma food_never_on_snake_witness :
  ((1 <= 1 <= 40 - 2 /\ 1 <= 2 <= 20 - 2) /\ ~ In (1, 2) [(20, 10)]) /\
  ~ In (food fresh_game) (snake fresh_game).
Proof.
  split.
  - apply (proj1 food_never_on_snake 40 20 [(20, 10)] 1%nat
             (counting_env [] []) (1, 2) (advance (counting_env [] []))).
    reflexivity.
  - apply (proj2 food_never_on_snake fresh_game).
    exact fresh_game_reachable.
Defined.

(** C7. If some interior cell is free of the snake, [generate_food]
    terminates, the random source permitting: on every source that draws
    each interior cell in some round it returns, given enough fuel; and of
    the equally likely ways [n] rounds of uniform draws can fall, the share
    in which the loop is still running drops below [1/m] for every [m] as
    [n] grows, so the loop ends with probability one. *)
Theorem generate_food_terminates
  (w h : Z) (body : list Position) (e : Env) :
  (exists p, interior w h p /\ ~ In p body) ->
  ((forall p, interior w h p -> exists k, drawn w h e k = p) ->
   exists fuel p e', generate_food w h body fuel e = (Ret p, e')) /\
  (forall m, exists n,
     (m * stuck_count w h body n <= List.length (outcomes w h n))%nat).
Proof.
  intros (p & Hp & Hfree).
  assert (Hw : 1 <= w - 2) by (destruct Hp as [? ?]; lia).
  assert (Hh : 1 <= h - 2) by (destruct Hp as [? ?]; lia).
  split.
  - intros Hfair. destruct (Hfair p Hp) as (k & Hk).
    exists (S k). apply generate_food_returns; try assumption.
    now rewrite Hk.
  - intros m.
    destruct (pow_ratio_vanishes
                (List.length (filter (fun c => mem c body) (cells w h)))
                (List.length (cells w h)) m) as (n & Hn).
    + apply filter_length_lt with (x := p).
      * now apply In_cells.
      * now apply mem_not_In.
    + exists n. now rewrite stuck_count_pow, length_outcomes.
Qed.

Lemma sweeping_env_fair (p : Position) :
  interior 4 4 p -> exists k, drawn 4 4 sweeping_env k = p.
Proof.
  destruct p as [x y]. unfold interior; cbn [fst snd]. intros [Hx Hy].
  assert (Ex : x = 1 \/ x = 2) by lia.
  assert (Ey : y = 1 \/ y = 2) by lia.
  destruct Ex as [-> | ->], Ey as [-> | ->].
  - now exists 0%nat.
  - now exists 2%nat.
  - now exists 1%nat.
  - now exists 3%nat.
Qed.

Lemma generate_food_terminates_witness :
  (exists fuel p e',
     generate_food 4 4 [(2, 2)] fuel sweeping_env = (Ret p, e')) /\
  (forall m, exists n,
     (m * stuck_count 4 4 [(2, 2)%Z] n <= List.length (outcomes 4 4 n))%nat).
Proof.
  assert (Hfree : exists p, interior 4 4 p /\ ~ In p [(2, 2)]).
  { exists (1, 1). split.
    - unfold interior; simpl; lia.
    - simpl. intros [H | []]. discriminate H. }
  split.
  - exact (proj1 (generate_food_terminates 4 4 [(2, 2)] sweeping_env Hfree)
             sweeping_env_fair).
  - exact (proj2 (generate_food_terminates 4 4 [(2, 2)] sweeping_env Hfree)).
Defined.

(** On the 4 x 4 board with the snake on one of the four interior cells,
    one round in four leaves the loop running, one pair of rounds in
    sixteen. *)
Example stuck_count_4x4 :
  stuck_count 4 4 [(2, 2)] 1 = 1%nat /\
  List.length (outcomes 4 4 1) = 4%nat /\
  stuck_count 4 4 [(2, 2)] 2 = 1%nat /\
  List.length (outcomes 4 4 2) = 16%nat.
Proof. repeat split. Qed.

(** ** Construction *)

(** C10. A game that [__init__] hands back has one segment at
    [(width // 2, height // 2)], heads right, has score 0 and is not over;
    for the default board that segment is (20, 10), and the default
    construction does hand a game back as soon as some round draws a cell
    other than (20, 10). *)
Theorem constructed_game_is_fresh :
  (forall w h fuel e g e',
     init w h fuel e = (Ret g, e') ->
     width g = w /\ height g = h /\
     snake g = [(w / 2, h / 2)] /\ direction g = (1, 0) /\
     score g = 0 /\ game_over g = false) /\
  (forall fuel e g e',
     init_default fuel e = (Ret g, e') ->
     snake g = [(20, 10)] /\ direction g = (1, 0) /\
     score g = 0 /\ game_over g = false) /\
  (forall e k,
     drawn 40 20 e k <> (20, 10) ->
     exists g e', init_default (S k) e = (Ret g, e')).
Proof.
  split; [|split].
  - intros w h fuel e g e' H.
    apply init_inv in H as (f & _ & ->). cbn. tauto.
  - intros fuel e g e' H.
    apply init_inv in H as (f & _ & ->). cbn. tauto.
  - intros e k Hk. unfold init_default, init, bind.
    destruct (generate_food_returns 40 20 [(40 / 2, 20 / 2)])
      with (k := k) (e := e) as (p & e' & Hg); [lia | lia | |].
    + intros [H | []]. apply Hk. now rewrite <- H.
    + rewrite Hg. unfold ret. eauto.
Qed.

Lemma constructed_game_is_fresh_witness :
  (snake fresh_game = [(20, 10)] /\ direction fresh_game = (1, 0) /\
   score fresh_game = 0 /\ game_over fresh_game = false) /\
  (exists g e', init_default 1 (counting_env [] []) = (Ret g, e')).
Proof.
  split.
  - apply (proj1 (proj2 constructed_game_is_fresh) 1%nat
             (counting_env [] []) fresh_game (advance (counting_env [] []))).
    reflexivity.
  - apply (proj2 (proj2 constructed_game_is_fresh) (counting_env [] []) 0%nat).
    vm_compute. discriminate.
Defined.

(** ** The end of the round *)

(** Case analysis along the branches of [move_snake]. *)
Tactic Notation "move_cases" constr(g)
  "as" ident(head) ident(rest) ident(Hs) ident(Hw) ident(Hm) ident(Hf) :=
  destruct (snake g) as [|head rest] eqn:Hs;
  [ rewrite move_snake_empty by assumption
  | destruct (hits_wall g (ahead g head)) eqn:Hw;
    [ rewrite (move_snake_wall _ _ _ _ _ Hs Hw)
    | destruct (mem (ahead g head) (snake g)) eqn:Hm;
      [ rewrite (move_snake_self _ _ _ _ _ Hs Hw Hm)
      | destruct (pos_eqb (ahead g head) (food g)) eqn:Hf;
        [ rewrite (move_snake_eat _ _ _ _ _ Hs Hw Hm Hf)
        | rewrite (move_snake_plain _ _ _ _ _ Hs Hw Hm Hf) ] ] ] ].

Lemma move_snake_keeps_game_over fuel g e :
  game_over g = true ->
  game_over (fst (snd (move_snake fuel (g, e)))) = true.
Proof.
  intros Hover. move_cases g as head rest Hs Hw Hm Hf; try exact Hover;
    try reflexivity.
  destruct (generate_food _ _ _ _ _) as [[f|x|] e1]; exact Hover.
Qed.

Lemma move_snake_sets_game_over fuel g e :
  game_over g = false ->
  game_over (fst (snd (move_snake fuel (g, e)))) = true ->
  exists head rest,
    snake g = head :: rest /\
    (hits_wall g (ahead g head) = true \/ In (ahead g head) (snake g)) /\
    move_snake fuel (g, e) = (Ret tt, (set_game_over true g, e)).
Proof.
  intros Hrun. move_cases g as head rest Hs Hw Hm Hf; cbn [fst snd]; intros H.
  - congruence.
  - exists head, rest. auto.
  - exists head, rest. apply mem_In in Hm. rewrite Hs in Hm. auto.
  - destruct (generate_food _ _ _ _ _) as [[f|x|] e1];
      cbn in H; congruence.
  - cbn in H. congruence.
Qed.

Lemma update_direction_game_over key g e :
  game_over (fst (snd (update_direction key (g, e)))) = game_over g.
Proof.
  destruct (update_direction_cases key g e) as [H | (d & _ & H)];
    now rewrite H.
Qed.

Lemma step_keeps_game_over g g' :
  step g g' -> game_over g = true -> game_over g' = true.
Proof.
  intros [key g0 e g1 e' H | fuel g0 e g1 e' H] Hover.
  - pose proof (update_direction_game_over key g0 e) as Hk.
    rewrite H in Hk. cbn in Hk. congruence.
  - pose proof (move_snake_keeps_game_over fuel g0 e Hover) as Hk.
    now rewrite H in Hk.
Qed.

Lemma run_loop_over rounds fuel g e :
  game_over g = true -> run_loop rounds fuel (g, e) = (Ret tt, (g, e)).
Proof.
  intros Hover. destruct rounds; cbn [run_loop]; unfold bind, self;
    cbn [fst snd]; now rewrite Hover.
Qed.

(** C8. [game_over] is false in a game just constructed; a tick turns it
    on only by a collision with the wall or with the snake itself;
    steering never touches it; no method call turns it off again, however
    the call ends and however many calls follow; and the loop of [run]
    does nothing more once it is on. *)
Theorem game_over_is_final :
  (forall w h fuel e g e',
     init w h fuel e = (Ret g, e') -> game_over g = false) /\
  (forall fuel g e,
     game_over g = false ->
     game_over (fst (snd (move_snake fuel (g, e)))) = true ->
     exists head rest,
       snake g = head :: rest /\
       (hits_wall g (ahead g head) = true \/ In (ahead g head) (snake g)) /\
       move_snake fuel (g, e) = (Ret tt, (set_game_over true g, e))) /\
  (forall key g e,
     game_over (fst (snd (update_direction key (g, e)))) = game_over g) /\
  (forall fuel g e,
     game_over g = true ->
     game_over (fst (snd (move_snake fuel (g, e)))) = true) /\
  (forall g g', steps g g' -> game_over g = true -> game_over g' = true) /\
  (forall rounds fuel g e,
     game_over g = true -> run_loop rounds fuel (g, e) = (Ret tt, (g, e))).
Proof.
  split; [|split; [|split; [|split; [|split]]]].
  - intros w h fuel e g e' H. now apply init_inv in H as (f & _ & ->).
  - exact move_snake_sets_game_over.
  - exact update_direction_game_over.
  - exact move_snake_keeps_game_over.
  - intros g g' Hs. induction Hs as [g | g g' g'' _ IH Hst]; [auto|].
    intros Hover. eapply step_keeps_game_over; eauto.
  - exact run_loop_over.
Qed.

Lemma game_over_is_final_witness :
  game_over fresh_game = false /\
  (exists head rest,
     snake at_the_wall = head :: rest /\
     (hits_wall at_the_wall (ahead at_the_wall head) = true \/
      In (ahead at_the_wall head) (snake at_the_wall)) /\
     move_snake 0 (at_the_wall, counting_env [] []) =
       (Ret tt, (set_game_over true at_the_wall, counting_env [] []))) /\
  game_over (fst (snd (move_snake 0 (lost_game, counting_env [] [])))) = true /\
  run_loop 3 0 (lost_game, counting_env ["w"%char] [Poll []; Expire]) =
    (Ret tt, (lost_game, counting_env ["w"%char] [Poll []; Expire])).
Proof.
  destruct game_over_is_final as (Hinit & Hset & _ & Hkeep & _ & Hloop).
  split; [|split; [|split]].
  - apply (Hinit 40 20 1%nat (counting_env [] []) fresh_game
             (advance (counting_env [] []))).
    reflexivity.
  - apply (Hset 0%nat at_the_wall (counting_env [] [])); reflexivity.
  - apply (Hkeep 0%nat lost_game (counting_env [] [])). reflexivity.
  - apply (Hloop 3%nat 0%nat lost_game). reflexivity.
Defined.

(** The specification's scenario: from (5,5) on a 10 x 10 board, heading
    right with no key pressed, the head goes to (6,5), (7,5), (8,5); the
    fourth tick meets the wall, the loop ends, the score is still 0. *)
Example straight_into_the_wall :
  run_loop 10 0
    (before_gap, counting_env [] [Expire; Expire; Expire; Expire; Expire]) =
  (Ret tt, (mkGame 10 10 [(8, 5)] (1, 0) (2, 2) 0 true,
            counting_env [] [Expire])).
Proof. reflexivity. Qed.

(** ** The input window *)

(** [get_input] takes at most two bytes off the front of the buffer, at
    least one when it reports a key, never reports the empty string, and
    touches nothing else. *)
Lemma get_input_consumes (e : Env) :
  exists used,
    kbd e = used ++ kbd (snd (get_input e)) /\
    (List.length used <= 2)%nat /\
    (forall k, fst (get_input e) = Ret (Some k) ->
               (1 <= List.length used)%nat /\ k <> EmptyString) /\
    draws (snd (get_input e)) = draws e /\
    cursor (snd (get_input e)) = cursor e /\
    clock (snd (get_input e)) = clock e.
Proof.
  destruct e as [dr cu kb cl].
  unfold get_input, bind, kbhit, getch, decode, ret, raise.
  cbn [kbd set_kbd draws cursor clock].
  assert (Hlow : forall c k,
             Ret (Some (lower (String c EmptyString))) = Ret (Some k) ->
             k <> EmptyString).
  { intros c k [= <-]. discriminate. }
  destruct kb as [|c kb]; cbn [kbd set_kbd];
    [exists [] |
     destruct (Ascii.eqb c arrow_prefix);
     [ destruct kb as [|c2 kb]; cbn [kbd set_kbd];
       [exists [c] | exists [c; c2];
        destruct (Ascii.eqb c2 "H"); [|destruct (Ascii.eqb c2 "P");
          [|destruct (Ascii.eqb c2 "K"); [|destruct (Ascii.eqb c2 "M")]]]]
     | exists [c]; destruct (N_of_ascii c <? 128)%N ]];
    cbn [fst snd kbd draws cursor clock app List.length];
    (split; [reflexivity | split; [lia | split; [|repeat split]]]);
    intros k Hk; try discriminate Hk;
    (split; [lia | first [ eapply Hlow; eassumption
                         | injection Hk as <-; discriminate ]]).
Qed.

(** A poll with nothing in the buffer reports no key. *)
Lemma get_input_idle (e : Env) : kbd e = [] -> get_input e = (Ret None, e).
Proof.
  intros H. unfold get_input, bind, kbhit. now rewrite H.
Qed.

(** A letter key at the front of the buffer is reported in lower case and
    is the only byte taken. *)
Lemma get_input_letter (e : Env) (c : ascii) (rest : list ascii) :
  kbd e = c :: rest ->
  c <> arrow_prefix -> (N_of_ascii c < 128)%N ->
  get_input e =
  (Ret (Some (String (lower_char c) EmptyString)), set_kbd rest e).
Proof.
  intros Hk Hc Hn. unfold get_input, bind, kbhit, getch, decode.
  cbn beta. rewrite !Hk. cbn beta iota.
  apply Ascii.eqb_neq in Hc. rewrite Hc.
  apply N.ltb_lt in Hn. now rewrite Hn.
Qed.

(** Polls that find the buffer empty only pass the time. *)
Lemma poll_events_quiet (n : nat) (evs : list event) :
  forall key dr cu cl,
    poll_events (repeat (Poll []) (S n) ++ evs) key (mkEnv dr cu [] cl) =
    poll_events evs None (mkEnv dr cu [] evs).
Proof.
  induction n as [|n IH]; intros key dr cu cl.
  - reflexivity.
  - change (repeat (Poll []) (S (S n)) ++ evs)
      with (Poll [] :: (repeat (Poll []) (S n) ++ evs)).
    cbn [poll_events]. unfold bind at 1, modify. unfold bind at 1.
    cbn [kbd set_kbd set_clock draws cursor clock app].
    rewrite get_input_idle by reflexivity. cbn [truthy].
    apply IH.
Qed.

(** The first poll that reports a key ends the window with that key. *)
Lemma poll_events_key (arrived : list ascii) (evs : list event)
      (key : option string) (e : Env) (k : string) (e1 : Env) :
  get_input (set_clock evs (set_kbd (kbd e ++ arrived) e))
    = (Ret (Some k), e1) ->
  poll_events (Poll arrived :: evs) key e = (Ret (Some k), e1).
Proof.
  intros Hg. cbn [poll_events]. unfold bind at 1, modify. unfold bind at 1.
  rewrite Hg.
  destruct (get_input_consumes (set_clock evs (set_kbd (kbd e ++ arrived) e)))
    as (used & _ & _ & Hk & _).
  rewrite Hg in Hk. destruct (Hk k eq_refl) as [_ Hne].
  unfold truthy. apply String.eqb_neq in Hne. now rewrite Hne.
Qed.

(** Letters waiting when the window opens: the first is the key of the
    window, the others are still waiting when it closes. *)
Lemma poll_window_first_letter (e : Env) (c : ascii) (rest arrived : list ascii)
      (evs : list event) :
  kbd e = c :: rest -> clock e = Poll arrived :: evs ->
  c <> arrow_prefix -> (N_of_ascii c < 128)%N ->
  poll_window e =
  (Ret (Some (String (lower_char c) EmptyString)),
   set_clock evs (set_kbd (rest ++ arrived) e)).
Proof.
  intros Hk Hc Hp Hn. unfold poll_window. rewrite Hc.
  apply poll_events_key.
  rewrite (get_input_letter _ c (rest ++ arrived)); try assumption.
  - reflexivity.
  - cbn [kbd set_kbd set_clock]. now rewrite Hk.
Qed.


(** The specification's scenario, keys "d" then "a" typed in one window
    while heading right: the first round takes "d", the second "a", which
    is refused as a reversal two ticks running. *)
Example keys_d_then_a :
  let e := counting_env ["d"; "a"]%char
             [Poll []; Poll []; Expire; Poll []; Expire] in
  run_round 0 (fresh_game, e) =
    (Ret false, (set_snake [(21, 10)] fresh_game,
                 counting_env ["a"]%char [Poll []; Expire; Poll []; Expire])) /\
  (run_round 0 ;;; run_round 0) (fresh_game, e) =
    (Ret false, (set_snake [(22, 10)] fresh_game,
                 counting_env [] [Expire; Poll []; Expire])).
Proof. split; reflexivity. Qed.





(** * Further properties of the code *)

(** ** Invariants of play *)

(** What holds at construction and is kept by steering and by every
    returning tick holds in every reachable game. *)
Lemma reachable_invariant (P : Game -> Prop) :
  (forall w h fuel e g e', init w h fuel e = (Ret g, e') -> P g) ->
  (forall key d g, In (key, d) directions -> P g -> P (set_direction d g)) ->
  (forall fuel g e g' e', moved fuel g e g' e' -> P g -> P g') ->
  forall g, reachable g -> P g.
Proof.
  intros Hinit Hdir Hmove g Hr.
  induction Hr as [w h fuel e g e' H | g g' _ IH Hst].
  - eapply Hinit; eassumption.
  - destruct Hst as [key g e g' e' H | fuel g e g' e' H].
    + destruct (update_direction_cases key g e) as [H' | (d & Hd & H')];
        rewrite H' in H; injection H as <- _; [exact IH|].
      eapply Hdir; eassumption.
    + apply move_snake_inv in H. eapply Hmove; eassumption.
Qed.

Lemma In_unit_steps (d : Position) :
  In d unit_steps <-> d = (0, -1) \/ d = (0, 1) \/ d = (-1, 0) \/ d = (1, 0).
Proof.
  unfold unit_steps, directions; simpl.
  split; intros H; repeat (destruct H as [H | H]); auto; contradiction.
Qed.

Lemma directions_unit key d : In (key, d) directions -> In d unit_steps.
Proof.
  intros H. unfold unit_steps. apply in_map_iff. now exists (key, d).
Qed.

Lemma Forall_removelast {A} (P : A -> Prop) (l : list A) :
  Forall P l -> Forall P (removelast l).
Proof.
  rewrite !Forall_forall. intros H x Hx. apply H. now apply In_removelast.
Qed.

Lemma ahead_interior (g : Game) (head : Position) :
  hits_wall g (ahead g head) = false ->
  interior (width g) (height g) (ahead g head).
Proof.
  intros H. apply hits_wall_false in H. unfold interior. lia.
Qed.

Lemma moved_in_bounds fuel g e g' e' :
  moved fuel g e g' e' -> in_bounds g -> in_bounds g'.
Proof.
  intros Hm (Hw & Hh & Hs & Hf).
  destruct Hm as [head rest Hsn Hwall | head rest Hsn Hwall Hin
                 | head rest Hsn Hwall Hin Hfood
                 | head rest f e' Hsn Hwall Hin Hfood Hg];
    unfold in_bounds;
    cbn [width height snake food set_game_over set_snake set_food
         set_score grown];
    (split; [exact Hw | split; [exact Hh | split]]); try assumption.
  - apply Forall_removelast. constructor; [|assumption].
    now apply ahead_interior.
  - constructor; [|assumption]. now apply ahead_interior.
  - now apply generate_food_sound in Hg as [Hg _].
Qed.

Lemma centre_interior (w h : Z) :
  3 <= w -> 3 <= h -> interior w h (w / 2, h / 2).
Proof.
  intros Hw Hh. unfold interior; cbn [fst snd].
  pose proof (Z.div_mod w 2 ltac:(lia)).
  pose proof (Z.mod_pos_bound w 2 ltac:(lia)).
  pose proof (Z.div_mod h 2 ltac:(lia)).
  pose proof (Z.mod_pos_bound h 2 ltac:(lia)).
  lia.
Qed.

Lemma init_in_bounds w h fuel e g e' :
  init w h fuel e = (Ret g, e') -> in_bounds g.
Proof.
  intros H. apply init_inv in H as (f & Hf & ->).
  apply generate_food_sound in Hf as [Hf _].
  assert (Hw : 3 <= w) by (destruct Hf; lia).
  assert (Hh : 3 <= h) by (destruct Hf; lia).
  unfold in_bounds; cbn [width height snake food].
  split; [exact Hw | split; [exact Hh | split; [|exact Hf]]].
  constructor; [|constructor]. now apply centre_interior.
Qed.

Lemma reachable_in_bounds g : reachable g -> in_bounds g.
Proof.
  revert g. apply reachable_invariant.
  - exact init_in_bounds.
  - intros key d g _ Hg. exact Hg.
  - exact moved_in_bounds.
Qed.

(** X1. In every reachable game the board is 3 x 3 at least and every
    segment of the snake, like the food, lies in the interior
    [1 .. width-2] x [1 .. height-2]: nothing is ever on the border. *)
Theorem snake_and_food_stay_inside (g : Game) :
  reachable g ->
  3 <= width g /\ 3 <= height g /\
  (forall p, In p (snake g) ->
     1 <= fst p <= width g - 2 /\ 1 <= snd p <= height g - 2) /\
  (1 <= fst (food g) <= width g - 2 /\ 1 <= snd (food g) <= height g - 2).
Proof.
  intros Hr. destruct (reachable_in_bounds g Hr) as (Hw & Hh & Hs & Hf).
  split; [exact Hw | split; [exact Hh | split; [|exact Hf]]].
  rewrite Forall_forall in Hs. exact Hs.
Qed.

Lemma snake_and_food_stay_inside_witness :
  3 <= width fresh_game /\ 3 <= height fresh_game /\
  (forall p, In p (snake fresh_game) ->
     1 <= fst p <= width fresh_game - 2 /\
     1 <= snd p <= height fresh_game - 2) /\
  (1 <= fst (food fresh_game) <= width fresh_game - 2 /\
   1 <= snd (food fresh_game) <= height fresh_game - 2).
Proof.
  exact (snake_and_food_stay_inside fresh_game fresh_game_reachable).
Defined.

Lemma moved_score fuel g e g' e' :
  moved fuel g e g' e' ->
  score g = 10 * (Z.of_nat (List.length (snake g)) - 1) ->
  score g' = 10 * (Z.of_nat (List.length (snake g')) - 1).
Proof.
  intros Hm Hg.
  destruct Hm as [head rest Hsn Hwall | head rest Hsn Hwall Hin
                 | head rest Hsn Hwall Hin Hfood
                 | head rest f e' Hsn Hwall Hin Hfood Hgen];
    cbn [score snake set_game_over set_snake set_food set_score grown];
    try exact Hg.
  - now rewrite length_removelast_cons.
  - cbn [List.length]. lia.
Qed.

(** X2. In every reachable game the score is ten times the number of
    segments the snake has grown: [score = 10 * (len(snake) - 1)]. *)
Theorem score_counts_growth (g : Game) :
  reachable g ->
  score g = 10 * (Z.of_nat (List.length (snake g)) - 1).
Proof.
  revert g. apply reachable_invariant.
  - intros w h fuel e g e' H. apply init_inv in H as (f & _ & ->).
    reflexivity.
  - intros key d g _ Hg. exact Hg.
  - exact moved_score.
Qed.

Lemma score_counts_growth_witness :
  score fresh_game = 10 * (Z.of_nat (List.length (snake fresh_game)) - 1).
Proof.
  exact (score_counts_growth fresh_game fresh_game_reachable).
Defined.

Lemma reachable_unit_direction (g : Game) :
  reachable g -> In (direction g) unit_steps.
Proof.
  revert g. apply reachable_invariant.
  - intros w h fuel e g e' H. apply init_inv in H as (f & _ & ->).
    apply In_unit_steps. auto.
  - intros key d g Hd _. cbn [direction set_direction].
    eapply directions_unit; eassumption.
  - intros fuel g e g' e' Hm Hg.
    destruct Hm; cbn [direction set_game_over set_snake set_food set_score
                      grown]; exact Hg.
Qed.

(** X3. In every reachable game the stored direction is one of the four
    unit steps up, down, left, right. *)
Theorem direction_is_unit_step (g : Game) :
  reachable g ->
  direction g = (0, -1) \/ direction g = (0, 1) \/
  direction g = (-1, 0) \/ direction g = (1, 0).
Proof.
  intros Hr. apply In_unit_steps. now apply reachable_unit_direction.
Qed.

Lemma direction_is_unit_step_witness :
  direction fresh_game = (0, -1) \/ direction fresh_game = (0, 1) \/
  direction fresh_game = (-1, 0) \/ direction fresh_game = (1, 0).
Proof.
  exact (direction_is_unit_step fresh_game fresh_game_reachable).
Defined.

Lemma lookup_In key (l : list (string * Position)) d :
  lookup key l = Some d -> In (key, d) l.
Proof.
  induction l as [|[k v] l IH]; [discriminate|].
  cbn [lookup]. destruct (String.eqb key k) eqn:E.
  - apply String.eqb_eq in E. intros [= <-]. subst k. now left.
  - intros H. right. now apply IH.
Qed.

(** Steering either changes nothing or stores a unit step that is not the
    reverse of the direction before. *)
Lemma update_direction_result key g e :
  update_direction key (g, e) = (Ret tt, (g, e)) \/
  exists d,
    In (key, d) directions /\ d <> opposite (direction g) /\
    update_direction key (g, e) = (Ret tt, (set_direction d g, e)).
Proof.
  unfold update_direction.
  destruct (lookup key directions) as [d|] eqn:El; [|now left].
  unfold bind, self; cbn [fst snd].
  destruct (pos_eqb _ _) eqn:Et; cbn [negb]; [now left|].
  right. exists d. split; [now apply lookup_In|]. split; [|reflexivity].
  intros Hrev. apply reverse_test in Hrev. congruence.
Qed.

(** X4. Steering twice by the same key is steering once. *)
Theorem update_direction_idempotent (key : string) (w : World) :
  (update_direction key ;;; update_direction key) w = update_direction key w.
Proof.
  destruct w as [g e]. unfold bind at 1.
  destruct (update_direction_result key g e) as [H | (d & Hd & Hrev & H)];
    rewrite H; [exact H|].
  unfold update_direction. rewrite (lookup_directions _ _ Hd).
  unfold bind, self; cbn [fst snd direction set_direction].
  assert (Hne : pos_eqb (fst d * -1, snd d * -1) d = false).
  { apply pos_eqb_neq. apply directions_unit, In_unit_steps in Hd.
    destruct Hd as [-> | [-> | [-> | ->]]]; discriminate. }
  rewrite Hne. reflexivity.
Qed.

(** ** The snake as a path *)

Lemma adjacent_ahead (g : Game) (head : Position) :
  In (direction g) unit_steps -> adjacent (ahead g head) head.
Proof.
  intros H. apply In_unit_steps in H. unfold adjacent, ahead.
  destruct head as [hx hy]; cbn [fst snd].
  destruct H as [-> | [-> | [-> | ->]]]; cbn [fst snd]; lia.
Qed.

Lemma linked_removelast (l : list Position) :
  linked l -> linked (removelast l).
Proof.
  induction l as [|p l IH]; [trivial|].
  destruct l as [|q l]; [trivial|].
  intros [Hpq Hl]. specialize (IH Hl).
  destruct l as [|r l]; [exact I|].
  change (removelast (p :: q :: r :: l))
    with (p :: q :: removelast (r :: l)).
  change (removelast (q :: r :: l)) with (q :: removelast (r :: l)) in IH.
  split; assumption.
Qed.

(** X5. In every reachable game the snake is a path on the grid: each
    segment shares a side with the one that follows it. *)
Theorem snake_is_a_path (g : Game) :
  reachable g -> linked (snake g).
Proof.
  intros Hr.
  assert (H : In (direction g) unit_steps /\ linked (snake g));
    [|exact (proj2 H)].
  revert g Hr. apply reachable_invariant.
  - intros w h fuel e g e' H. apply init_inv in H as (f & _ & ->).
    split; [apply In_unit_steps; auto | exact I].
  - intros key d g Hd [_ Hl]. split; [|exact Hl].
    eapply directions_unit; eassumption.
  - intros fuel g e g' e' Hm [Hu Hl].
    destruct Hm as [head rest Hsn Hwall | head rest Hsn Hwall Hin
                   | head rest Hsn Hwall Hin Hfood
                   | head rest f e' Hsn Hwall Hin Hfood Hgen];
      cbn [direction snake set_game_over set_snake set_food set_score grown];
      (split; [exact Hu|]); try exact Hl.
    + apply linked_removelast. rewrite Hsn in *.
      split; [now apply adjacent_ahead | exact Hl].
    + rewrite Hsn in *. split; [now apply adjacent_ahead | exact Hl].
Qed.

Lemma snake_is_a_path_witness :
  linked (snake fed_game).
Proof.
  exact (snake_is_a_path fed_game fed_game_reachable).
Defined.

(** ** A round of the loop *)

(** A round that returns either left the loop with the game untouched, or
    steered (by some key or not at all) and then ticked. *)
Lemma run_round_inv fuel g e stop g' e' :
  run_round fuel (g, e) = (Ret stop, (g', e')) ->
  (stop = true /\ g' = g) \/
  (stop = false /\
   exists g1 e1,
     (g1 = g \/ exists key, update_direction key (g, e1) = (Ret tt, (g1, e1)))
     /\ move_snake fuel (g1, e1) = (Ret tt, (g', e'))).
Proof.
  unfold run_round, bind at 1, lift_env; cbn [fst snd].
  destruct (poll_window e) as [[key|x|] e1]; try discriminate.
  destruct (is_quit key).
  { intros [= <- <- _]. now left. }
  unfold bind at 1.
  assert (Hu : exists g1,
             (if truthy key
              then match key with
                   | Some k => update_direction k
                   | None => ret tt
                   end
              else ret tt) (g, e1) = (Ret tt, (g1, e1)) /\
             (g1 = g \/
              exists k, update_direction k (g, e1) = (Ret tt, (g1, e1)))).
  { destruct (truthy key); [destruct key as [k|]|];
      try (exists g; split; [reflexivity | now left]).
    destruct (update_direction_cases k g e1) as [H | (d & _ & H)].
    - exists g. split; [assumption | now left].
    - exists (set_direction d g). split; [assumption|]. right. now exists k. }
  destruct Hu as (g1 & -> & Hs).
  unfold bind at 1.
  destruct (move_snake fuel (g1, e1)) as [[[]|x|] [g2 e2]] eqn:Hm;
    try discriminate.
  intros [= <- <- <-]. right. split; [reflexivity|]. eauto.
Qed.

Lemma moved_trails fuel g e g' e' :
  moved fuel g e g' e' -> game_over g' = false -> trails g'.
Proof.
  intros Hm Hrun.
  destruct Hm as [head rest Hsn Hwall | head rest Hsn Hwall Hin
                 | head rest Hsn Hwall Hin Hfood
                 | head rest f e' Hsn Hwall Hin Hfood Hgen];
    try discriminate Hrun;
    unfold trails;
    cbn [direction snake set_game_over set_snake set_food set_score grown];
    rewrite Hsn; unfold ahead; destruct head as [hx hy]; cbn [fst snd].
  - destruct rest as [|r rest]; [exact I|].
    change (removelast ((hx + fst (direction g), hy + snd (direction g))
                          :: (hx, hy) :: r :: rest))
      with ((hx + fst (direction g), hy + snd (direction g))
              :: (hx, hy) :: removelast (r :: rest)).
    cbn [fst snd]. f_equal; lia.
  - cbn [fst snd]. f_equal; lia.
Qed.

Lemma playing_reachable g : playing g -> reachable g.
Proof.
  induction 1 as [w h fuel e g e' H | fuel g e g' e' _ IH _ H].
  - eapply reach_init; eassumption.
  - eapply run_round_reachable; eassumption.
Qed.

Lemma playing_trails g : playing g -> game_over g = false -> trails g.
Proof.
  intros Hp Hrun. destruct Hp as [w h fuel e g e' H | fuel g e g' e' _ _ H].
  - apply init_inv in H as (f & _ & ->). exact I.
  - apply run_round_inv in H as [[H _] | (_ & g1 & e1 & _ & H)];
      [discriminate|].
    apply move_snake_inv in H. eapply moved_trails; eassumption.
Qed.

(** X6. The snake never turns back onto its own neck.  At the head of the
    loop of [run], while the game goes on, the cell the head will move to
    is not the segment behind it, whether the round applies no key or any
    key at all. *)
Theorem never_into_the_neck
  (g : Game) (h s : Position) (rest : list Position) :
  playing g -> game_over g = false ->
  snake g = h :: s :: rest ->
  ahead g h <> s /\
  forall key e, ahead (fst (snd (update_direction key (g, e)))) h <> s.
Proof.
  intros Hp Hrun Hsn.
  pose proof (playing_trails g Hp Hrun) as Ht.
  unfold trails in Ht. rewrite Hsn in Ht.
  pose proof (reachable_unit_direction g (playing_reachable g Hp)) as Hu.
  apply In_unit_steps in Hu.
  assert (Hstay : ahead g h <> s).
  { unfold ahead. rewrite Ht. destruct h as [hx hy]; cbn [fst snd].
    intros [= H1 H2].
    destruct Hu as [Hd | [Hd | [Hd | Hd]]]; rewrite Hd in H1, H2;
      cbn [fst snd] in H1, H2; lia. }
  split; [exact Hstay|]. intros key e.
  destruct (update_direction_result key g e) as [H | (d & _ & Hrev & H)];
    rewrite H; cbn [fst snd]; [exact Hstay|].
  unfold ahead; cbn [direction set_direction]. rewrite Ht.
  destruct h as [hx hy], d as [dx dy]; cbn [fst snd].
  intros [= H1 H2]. apply Hrev. unfold opposite; cbn [fst snd].
  f_equal; lia.
Qed.

Lemma fed_game_playing : playing fed_game.
Proof.
  apply playing_round with (fuel := 1%nat) (g := before_food)
    (e := advance feeding_env)
    (e' := set_clock [] (advance (advance feeding_env))).
  - apply playing_init with (w := 10) (h := 10) (fuel := 1%nat)
      (e := feeding_env) (e' := advance feeding_env).
    reflexivity.
  - reflexivity.
  - reflexivity.
Qed.

Lemma never_into_the_neck_witness :
  ahead fed_game (6, 5) <> (5, 5) /\
  forall key e,
    ahead (fst (snd (update_direction key (fed_game, e)))) (6, 5) <> (5, 5).
Proof.
  exact (never_into_the_neck fed_game (6, 5) (5, 5) []
           fed_game_playing eq_refl eq_refl).
Defined.

(** ** What no call changes *)

Lemma move_snake_board fuel g e :
  width (fst (snd (move_snake fuel (g, e)))) = width g /\
  height (fst (snd (move_snake fuel (g, e)))) = height g /\
  direction (fst (snd (move_snake fuel (g, e)))) = direction g.
Proof.
  move_cases g as head rest Hs Hw Hm Hf;
    try destruct (generate_food _ _ _ _ _) as [[f|x|] e1];
    (split; [|split]); reflexivity.
Qed.

Lemma update_direction_board key g e :
  width (fst (snd (update_direction key (g, e)))) = width g /\
  height (fst (snd (update_direction key (g, e)))) = height g.
Proof.
  destruct (update_direction_cases key g e) as [H | (d & _ & H)];
    rewrite H; split; reflexivity.
Qed.

Lemma poll_window_outcome (g : Game) (e : Env) :
  fst (snd (lift_env poll_window (g, e))) = g.
Proof.
  unfold lift_env; cbn [fst snd]. now destruct (poll_window e).
Qed.

Lemma run_round_board fuel g e :
  width (fst (snd (run_round fuel (g, e)))) = width g /\
  height (fst (snd (run_round fuel (g, e)))) = height g.
Proof.
  assert (H : forall res,
             run_round fuel (g, e) = res ->
             width (fst (snd res)) = width g /\
             height (fst (snd res)) = height g); [|now apply H].
  unfold run_round, bind at 1, lift_env; cbn [fst snd].
  destruct (poll_window e) as [[key|x|] e1];
    try (intros res <-; split; reflexivity).
  destruct (is_quit key); [intros res <-; split; reflexivity|].
  unfold bind at 1.
  assert (Hu : exists g1,
             (if truthy key
              then match key with
                   | Some k => update_direction k
                   | None => ret tt
                   end
              else ret tt) (g, e1) = (Ret tt, (g1, e1)) /\
             width g1 = width g /\ height g1 = height g).
  { destruct (truthy key); [destruct key as [k|]|];
      try (exists g; split; [reflexivity | split; reflexivity]).
    pose proof (update_direction_board k g e1) as Hb.
    destruct (update_direction_cases k g e1) as [H | (d & _ & H)];
      rewrite H in *; eauto. }
  destruct Hu as (g1 & -> & Hw1 & Hh1).
  unfold bind, ret.
  pose proof (move_snake_board fuel g1 e1) as (Hw2 & Hh2 & _).
  destruct (move_snake fuel (g1, e1)) as [[[]|x|] [g2 e2]];
    cbn [fst snd] in *; intros res <-; cbn [fst snd]; split; congruence.
Qed.

(** X7. The board never changes size: whatever the loop of [run] does,
    and however it ends, the game it leaves has the width and the height
    it started with. *)
Theorem board_size_is_fixed (rounds fuel : nat) (g : Game) (e : Env) :
  width (fst (snd (run_loop rounds fuel (g, e)))) = width g /\
  height (fst (snd (run_loop rounds fuel (g, e)))) = height g.
Proof.
  assert (H : forall res,
             run_loop rounds fuel (g, e) = res ->
             width (fst (snd res)) = width g /\
             height (fst (snd res)) = height g); [|now apply H].
  revert g e. induction rounds as [|rounds IH]; intros g e;
    cbn [run_loop]; unfold bind at 1, self; cbn [fst snd];
    destruct (game_over g); try (intros res <-; split; reflexivity).
  unfold bind at 1.
  pose proof (run_round_board fuel g e) as [Hw Hh].
  destruct (run_round fuel (g, e)) as [[[|]|x|] [g1 e1]];
    cbn [fst snd] in *; try (intros res <-; split; assumption).
  intros res Hres. destruct (IH g1 e1 res Hres) as [Hw' Hh'].
  split; congruence.
Qed.

(** ** Where the food lands *)

(** X8. [generate_food] returns the first cell drawn that is free of the
    snake: if the rounds before round [k] draw occupied cells and round [k]
    draws a free one, the call returns that cell having used [2 * (k + 1)]
    draws, as soon as it is given more than [k] rounds, and is still
    looping with [k] rounds or fewer. *)
Theorem generate_food_first_free
  (w h : Z) (body : list Position) (k : nat) (e : Env) :
  3 <= w -> 3 <= h ->
  (forall j, (j < k)%nat -> In (drawn w h e j) body) ->
  ~ In (drawn w h e k) body ->
  (forall fuel, (k < fuel)%nat ->
     generate_food w h body fuel e =
     (Ret (drawn w h e k), set_cursor (cursor e + 2 * S k) e)) /\
  (forall fuel, (fuel <= k)%nat ->
     fst (generate_food w h body fuel e) = Hang).
Proof.
  intros Hw Hh. revert e. induction k as [|k IH]; intros e Hocc Hfree.
  - split; intros fuel Hfuel.
    + destruct fuel as [|fuel]; [lia|].
      rewrite generate_food_round by lia.
      apply mem_not_In in Hfree. rewrite Hfree.
      unfold advance, set_cursor. f_equal. f_equal. lia.
    + now replace fuel with 0%nat by lia.
  - assert (H0 : mem (drawn w h e 0) body = true)
      by (apply mem_In, Hocc; lia).
    destruct (IH (advance e)) as [IHret IHhang].
    { intros j Hj. rewrite drawn_advance. apply Hocc. lia. }
    { now rewrite drawn_advance. }
    split; intros fuel Hfuel.
    + destruct fuel as [|fuel]; [lia|].
      rewrite generate_food_round by lia. rewrite H0.
      rewrite IHret by lia. rewrite drawn_advance.
      unfold advance, set_cursor; cbn [draws cursor kbd clock].
      f_equal. f_equal. lia.
    + destruct fuel as [|fuel]; [reflexivity|].
      rewrite generate_food_round by lia. rewrite H0.
      apply IHhang. lia.
Qed.

Lemma generate_food_first_free_witness :
  (forall fuel, (1 < fuel)%nat ->
     generate_food 4 4 [(1, 1)] fuel sweeping_env =
     (Ret (2, 1), set_cursor 4 sweeping_env)) /\
  (forall fuel, (fuel <= 1)%nat ->
     fst (generate_food 4 4 [(1, 1)] fuel sweeping_env) = Hang).
Proof.
  apply (generate_food_first_free 4 4 [(1, 1)] 1 sweeping_env).
  - lia.
  - lia.
  - intros j Hj. replace j with 0%nat by lia. simpl. auto.
  - simpl. intros [H | []]. discriminate H.
Defined.

(** ** Boards too small to play on *)

(** X9. A board narrower or lower than 3 has no interior:
    [generate_food] raises [ValueError] in its first round, and so no game
    is constructed on it. *)
Theorem small_board_raises
  (w h : Z) (body : list Position) (fuel : nat) (e : Env) :
  w < 3 \/ h < 3 ->
  fst (generate_food w h body (S fuel) e) = Raise ValueError /\
  fst (init w h (S fuel) e) = Raise ValueError.
Proof.
  intros Hsmall.
  assert (Hg : forall body',
             fst (generate_food w h body' (S fuel) e) = Raise ValueError).
  { intros body'. destruct (Z_lt_le_dec (w - 2) 1) as [Hw | Hw].
    - now rewrite generate_food_no_columns.
    - rewrite generate_food_no_rows by lia. reflexivity. }
  split; [apply Hg|].
  unfold init, bind. specialize (Hg [(w / 2, h / 2)]).
  destruct (generate_food _ _ _ _ _) as [[f|x|] e1];
    cbn [fst] in *; congruence.
Qed.

Lemma small_board_raises_witness :
  fst (generate_food 2 20 [] 1 (counting_env [] [])) = Raise ValueError /\
  fst (init 2 20 1 (counting_env [] [])) = Raise ValueError.
Proof.
  apply (small_board_raises 2 20 [] 0 (counting_env [] [])).
  left. lia.
Defined.

(** X10. A game is only ever constructed on a board with room: width and
    height are 3 at least and one of them is more, for on the 3 x 3 board
    the one interior cell is under the snake and the constructor never
    returns. *)
Theorem constructed_board_has_room :
  (forall w h fuel e g e',
     init w h fuel e = (Ret g, e') ->
     3 <= w /\ 3 <= h /\ (3 < w \/ 3 < h)) /\
  (forall fuel e, fst (init 3 3 fuel e) = Hang).
Proof.
  split.
  - intros w h fuel e g e' H. apply init_inv in H as (f & Hf & _).
    apply generate_food_sound in Hf as [[Hx Hy] Hfree].
    assert (Hw : 3 <= w) by lia. assert (Hh : 3 <= h) by lia.
    split; [exact Hw | split; [exact Hh|]].
    destruct (Z_lt_le_dec 3 w) as [?|Hw3]; [now left|].
    destruct (Z_lt_le_dec 3 h) as [?|Hh3]; [now right|].
    exfalso. apply Hfree. left.
    assert (w = 3) by lia. assert (h = 3) by lia. subst w h.
    destruct f as [x y]; cbn [fst snd] in *.
    change (3 / 2) with 1. f_equal; lia.
  - intros fuel e. unfold init, bind.
    pose proof (generate_food_full 3 3 [(3 / 2, 3 / 2)]) as Hfull.
    specialize (Hfull ltac:(lia) ltac:(lia)).
    assert (Hall : forall p, interior 3 3 p -> In p [(3 / 2, 3 / 2)]).
    { intros [x y]. unfold interior; cbn [fst snd]. intros [Hx Hy].
      left. change (3 / 2) with 1. f_equal; lia. }
    specialize (Hfull Hall fuel e).
    destruct (generate_food _ _ _ _ _) as [[f|x|] e1];
      cbn [fst] in *; congruence.
Qed.

Lemma constructed_board_has_room_witness :
  3 <= 40 /\ 3 <= 20 /\ (3 < 40 \/ 3 < 20).
Proof.
  apply (proj1 constructed_board_has_room 40 20 1%nat (counting_env [] [])
           fresh_game (advance (counting_env [] []))).
  reflexivity.
Defined.

(** ** Keys *)

Lemma get_input_arrow (e : Env) (code : ascii) (rest : list ascii) :
  kbd e = arrow_prefix :: code :: rest ->
  get_input e =
  ((if Ascii.eqb code "H" then Ret (Some "w"%string)
    else if Ascii.eqb code "P" then Ret (Some "s"%string)
    else if Ascii.eqb code "K" then Ret (Some "a"%string)
    else if Ascii.eqb code "M" then Ret (Some "d"%string)
    else Ret None),
   set_kbd rest e).
Proof.
  intros Hk. unfold get_input, bind, kbhit, getch.
  cbn beta. rewrite !Hk. cbn beta iota.
  change (Ascii.eqb arrow_prefix arrow_prefix) with true. cbn beta iota.
  cbn [kbd set_kbd].
  destruct (Ascii.eqb code "H"); [reflexivity|].
  destruct (Ascii.eqb code "P"); [reflexivity|].
  destruct (Ascii.eqb code "K"); [reflexivity|].
  destruct (Ascii.eqb code "M"); reflexivity.
Qed.

(** X11. Arrow keys and letter keys steer alike: for each of the four
    directions the arrow sequence (prefix byte and code), the lower-case
    letter and the upper-case letter are all reported as the same key,
    which is a key of the dictionary [directions], and each leaves the
    bytes behind it in the buffer. *)
Theorem arrows_and_letters_agree
  (e : Env) (code c : ascii) (rest : list ascii) :
  In (code, c) arrow_codes ->
  let key := String c EmptyString in
  (kbd e = arrow_prefix :: code :: rest ->
   get_input e = (Ret (Some key), set_kbd rest e)) /\
  (kbd e = c :: rest ->
   get_input e = (Ret (Some key), set_kbd rest e)) /\
  (kbd e = upper_char c :: rest ->
   get_input e = (Ret (Some key), set_kbd rest e)) /\
  lookup key directions <> None.
Proof.
  intros Hin key. subst key.
  assert (Hcases : (code, c) = ("H", "w")%char \/ (code, c) = ("P", "s")%char
                   \/ (code, c) = ("K", "a")%char
                   \/ (code, c) = ("M", "d")%char).
  { unfold arrow_codes in Hin; simpl in Hin.
    destruct Hin as [H | [H | [H | [H | []]]]]; auto. }
  destruct Hcases as [H | [H | [H | H]]]; injection H as -> ->;
    (split; [|split; [|split]]);
    try (intros Hk; rewrite (get_input_arrow _ _ _ Hk); reflexivity);
    try (intros Hk; rewrite (get_input_letter _ _ _ Hk);
         [reflexivity | discriminate | reflexivity]);
    discriminate.
Qed.

Lemma arrows_and_letters_agree_witness :
  get_input (counting_env [arrow_prefix; "K"; "q"]%char [])
    = (Ret (Some "a"%string), counting_env ["q"%char] []) /\
  get_input (counting_env ["a"; "q"]%char [])
    = (Ret (Some "a"%string), counting_env ["q"%char] []) /\
  get_input (counting_env ["A"; "q"]%char [])
    = (Ret (Some "a"%string), counting_env ["q"%char] []).
Proof.
  pose proof (arrows_and_letters_agree) as H. cbv zeta in H.
  split; [|split].
  - apply (proj1 (H (counting_env [arrow_prefix; "K"; "q"]%char [])
                    "K"%char "a"%char ["q"%char]
                    ltac:(simpl; tauto))).
    reflexivity.
  - apply (proj1 (proj2 (H (counting_env ["a"; "q"]%char [])
                    "K"%char "a"%char ["q"%char]
                    ltac:(simpl; tauto)))).
    reflexivity.
  - apply (proj1 (proj2 (proj2 (H (counting_env ["A"; "q"]%char [])
                    "K"%char "a"%char ["q"%char]
                    ltac:(simpl; tauto))))).
    reflexivity.
Defined.

Lemma N_of_lower_char (c : ascii) :
  (N_of_ascii c < 128)%N ->
  (N_of_ascii (lower_char c) < 128)%N /\
  lower_char (lower_char c) = lower_char c.
Proof.
  intros Hc.
  assert (Hl : lower_char c =
               if ((65 <=? N_of_ascii c) && (N_of_ascii c <=? 90))%N
               then ascii_of_N (N_of_ascii c + 32) else c) by reflexivity.
  destruct ((65 <=? N_of_ascii c) && (N_of_ascii c <=? 90))%N eqn:E;
    rewrite Hl; clear Hl.
  - apply andb_true_iff in E as [E1 E2].
    apply N.leb_le in E1, E2.
    assert (Hn : N_of_ascii (ascii_of_N (N_of_ascii c + 32))
                 = (N_of_ascii c + 32)%N)
      by (apply N_ascii_embedding; lia).
    split; [lia|].
    unfold lower_char. rewrite Hn.
    destruct ((65 <=? N_of_ascii c + 32) && (N_of_ascii c + 32 <=? 90))%N
      eqn:E'; [|reflexivity].
    apply andb_true_iff in E' as [_ E']. apply N.leb_le in E'. lia.
  - split; [exact Hc|]. unfold lower_char. now rewrite E.
Qed.

(** X12. Every key [get_input] reports is one ASCII character and is not
    an upper-case letter: lower-casing it again changes nothing. *)
Theorem reported_key_is_lower_case (e : Env) (k : string) :
  fst (get_input e) = Ret (Some k) ->
  exists c,
    k = String c EmptyString /\
    (N_of_ascii c < 128)%N /\ lower_char c = c.
Proof.
  destruct (kbd e) as [|c kb] eqn:Hk.
  { rewrite get_input_idle by assumption. discriminate. }
  destruct (Ascii.eqb c arrow_prefix) eqn:Ec.
  - apply Ascii.eqb_eq in Ec. subst c.
    destruct kb as [|code kb].
    + unfold get_input, bind, kbhit, getch. cbn beta. rewrite !Hk.
      cbn beta iota. change (Ascii.eqb arrow_prefix arrow_prefix) with true.
      cbn beta iota. cbn [kbd set_kbd]. discriminate.
    + rewrite (get_input_arrow _ _ _ Hk). cbn [fst].
      destruct (Ascii.eqb code "H");
        [intros [= <-]; exists "w"%char; now vm_compute|].
      destruct (Ascii.eqb code "P");
        [intros [= <-]; exists "s"%char; now vm_compute|].
      destruct (Ascii.eqb code "K");
        [intros [= <-]; exists "a"%char; now vm_compute|].
      destruct (Ascii.eqb code "M");
        [intros [= <-]; exists "d"%char; now vm_compute|].
      discriminate.
  - apply Ascii.eqb_neq in Ec.
    destruct (N.lt_ge_cases (N_of_ascii c) 128) as [Hc | Hc].
    + rewrite (get_input_letter _ _ _ Hk Ec Hc). cbn [fst].
      intros [= <-]. exists (lower_char c).
      split; [reflexivity|]. now apply N_of_lower_char.
    + unfold get_input, bind, kbhit, getch, decode. cbn beta.
      rewrite !Hk. cbn beta iota.
      apply Ascii.eqb_neq in Ec. rewrite Ec.
      apply N.ltb_ge in Hc. rewrite Hc. discriminate.
Qed.

Lemma reported_key_is_lower_case_witness :
  exists c,
    "q"%string = String c EmptyString /\
    (N_of_ascii c < 128)%N /\ lower_char c = c.
Proof.
  apply (reported_key_is_lower_case (counting_env ["Q"%char] [])).
  reflexivity.
Defined.

(** X13. The edges of [get_input].  With the arrow prefix alone in the
    buffer the second read waits for a byte; an arrow prefix followed by a
    code that is none of the four is swallowed, both bytes gone and no key
    reported; a byte of 0x80 and above that is not the prefix is taken off
    the buffer and raises [UnicodeDecodeError]. *)
Theorem get_input_edges (e : Env) (c : ascii) (rest : list ascii) :
  (kbd e = [arrow_prefix] -> get_input e = (Hang, set_kbd [] e)) /\
  (kbd e = arrow_prefix :: c :: rest ->
   ~ In c (map fst arrow_codes) ->
   get_input e = (Ret None, set_kbd rest e)) /\
  (kbd e = c :: rest ->
   c <> arrow_prefix -> (128 <= N_of_ascii c)%N ->
   get_input e = (Raise UnicodeDecodeError, set_kbd rest e)).
Proof.
  split; [|split].
  - intros Hk. unfold get_input, bind, kbhit, getch. cbn beta.
    rewrite !Hk. cbn beta iota.
    change (Ascii.eqb arrow_prefix arrow_prefix) with true.
    cbn beta iota. reflexivity.
  - intros Hk Hnot. rewrite (get_input_arrow _ _ _ Hk).
    unfold arrow_codes in Hnot; simpl in Hnot.
    destruct (Ascii.eqb c "H") eqn:E1;
      [apply Ascii.eqb_eq in E1; subst c; tauto|].
    destruct (Ascii.eqb c "P") eqn:E2;
      [apply Ascii.eqb_eq in E2; subst c; tauto|].
    destruct (Ascii.eqb c "K") eqn:E3;
      [apply Ascii.eqb_eq in E3; subst c; tauto|].
    destruct (Ascii.eqb c "M") eqn:E4;
      [apply Ascii.eqb_eq in E4; subst c; tauto|].
    reflexivity.
  - intros Hk Hc Hn. unfold get_input, bind, kbhit, getch, decode.
    cbn beta. rewrite !Hk. cbn beta iota.
    apply Ascii.eqb_neq in Hc. rewrite Hc.
    apply N.ltb_ge in Hn. rewrite Hn. reflexivity.
Qed.

Lemma get_input_edges_witness :
  get_input (counting_env [arrow_prefix] [])
    = (Hang, counting_env [] []) /\
  get_input (counting_env [arrow_prefix; "G"; "w"]%char [])
    = (Ret None, counting_env ["w"%char] []) /\
  get_input (counting_env ["233"; "w"]%char [])
    = (Raise UnicodeDecodeError, counting_env ["w"%char] []).
Proof.
  split; [|split].
  - apply (proj1 (get_input_edges (counting_env [arrow_prefix] [])
                    "G"%char [])).
    reflexivity.
  - apply (proj1 (proj2 (get_input_edges
                    (counting_env [arrow_prefix; "G"; "w"]%char [])
                    "G"%char ["w"%char]))).
    + reflexivity.
    + simpl. intros [H | [H | [H | [H | []]]]]; discriminate H.
  - apply (proj2 (proj2 (get_input_edges
                    (counting_env ["233"; "w"]%char [])
                    "233"%char ["w"%char]))).
    + reflexivity.
    + discriminate.
    + vm_compute. discriminate.
Defined.

(** ** Windows without a key, and rounds that fail *)

(** X14. A window in which every poll finds the buffer empty reports no
    key when it runs out, and the round then ticks straight ahead: it is
    [move_snake] alone. *)
Theorem idle_window_ticks_straight
  (fuel n : nat) (g : Game) (e : Env) (evs : list event) :
  kbd e = [] ->
  clock e = repeat (Poll []) n ++ Expire :: evs ->
  poll_window e = (Ret None, set_clock evs e) /\
  run_round fuel (g, e) = (move_snake fuel ;;; ret false) (g, set_clock evs e).
Proof.
  intros Hk Hc.
  assert (Hpoll : poll_window e = (Ret None, set_clock evs e)).
  { unfold poll_window. rewrite Hc.
    destruct e as [dr cu kb cl]. cbn [kbd] in Hk. subst kb.
    destruct n as [|n]; [reflexivity|].
    rewrite poll_events_quiet. reflexivity. }
  split; [exact Hpoll|].
  unfold run_round, bind at 1, lift_env; cbn [fst snd].
  rewrite Hpoll. reflexivity.
Qed.

Lemma idle_window_ticks_straight_witness :
  poll_window (counting_env [] [Poll []; Poll []; Expire; Poll []])
    = (Ret None, counting_env [] [Poll []]) /\
  run_round 0 (fresh_game, counting_env [] [Poll []; Poll []; Expire; Poll []])
    = (move_snake 0 ;;; ret false) (fresh_game, counting_env [] [Poll []]).
Proof.
  apply (idle_window_ticks_straight 0 2 fresh_game
           (counting_env [] [Poll []; Poll []; Expire; Poll []]) [Poll []]);
    reflexivity.
Defined.

Lemma get_input_raises (e : Env) (x : exn) :
  fst (get_input e) = Raise x -> x = UnicodeDecodeError.
Proof.
  destruct (kbd e) as [|c kb] eqn:Hk.
  { rewrite get_input_idle by assumption. discriminate. }
  destruct (Ascii.eqb c arrow_prefix) eqn:Ec.
  - apply Ascii.eqb_eq in Ec. subst c. destruct kb as [|code kb].
    + unfold get_input, bind, kbhit, getch. cbn beta. rewrite !Hk.
      cbn beta iota. change (Ascii.eqb arrow_prefix arrow_prefix) with true.
      cbn beta iota. discriminate.
    + rewrite (get_input_arrow _ _ _ Hk). cbn [fst].
      destruct (Ascii.eqb code "H"); [discriminate|].
      destruct (Ascii.eqb code "P"); [discriminate|].
      destruct (Ascii.eqb code "K"); [discriminate|].
      destruct (Ascii.eqb code "M"); discriminate.
  - apply Ascii.eqb_neq in Ec.
    destruct (N.lt_ge_cases (N_of_ascii c) 128) as [Hc | Hc].
    + rewrite (get_input_letter _ _ _ Hk Ec Hc). discriminate.
    + unfold get_input, bind, kbhit, getch, decode. cbn beta.
      rewrite !Hk. cbn beta iota.
      apply Ascii.eqb_neq in Ec. rewrite Ec.
      apply N.ltb_ge in Hc. rewrite Hc. cbn. now intros [= <-].
Qed.

Lemma poll_events_raises (evs : list event) :
  forall key e x,
    fst (poll_events evs key e) = Raise x -> x = UnicodeDecodeError.
Proof.
  induction evs as [|[arrived|] evs IH]; intros key e x.
  - discriminate.
  - cbn [poll_events]. unfold bind at 1, modify. unfold bind at 1.
    pose proof (get_input_raises
                  (set_clock evs (set_kbd (kbd e ++ arrived) e))) as Hg.
    destruct (get_input _) as [[k|y|] e1]; cbn [fst] in *.
    + destruct (truthy k); [discriminate | apply IH].
    + intros [= <-]. now apply Hg.
    + discriminate.
  - discriminate.
Qed.

Lemma generate_food_never_raises w h body fuel :
  3 <= w -> 3 <= h ->
  forall e x, fst (generate_food w h body fuel e) <> Raise x.
Proof.
  intros Hw Hh. induction fuel as [|fuel IH]; intros e x; [discriminate|].
  rewrite generate_food_round by lia.
  destruct (mem _ body); [apply IH | discriminate].
Qed.

Lemma move_snake_never_raises fuel g e x :
  snake g <> [] -> 3 <= width g -> 3 <= height g ->
  fst (move_snake fuel (g, e)) <> Raise x.
Proof.
  intros Hne Hw Hh. move_cases g as head rest Hs Hw' Hm Hf;
    cbn [fst]; try discriminate; [now elim Hne|].
  pose proof (generate_food_never_raises (width g) (height g)
                (ahead g head :: snake g) fuel Hw Hh e x) as Hg.
  destruct (generate_food _ _ _ _ _) as [[f|y|] e1]; cbn [fst] in *;
    congruence.
Qed.

Lemma run_round_raises fuel g e x :
  snake g <> [] -> 3 <= width g -> 3 <= height g ->
  fst (run_round fuel (g, e)) = Raise x ->
  x = UnicodeDecodeError /\ fst (snd (run_round fuel (g, e))) = g.
Proof.
  intros Hne Hw Hh.
  assert (H : forall res,
             run_round fuel (g, e) = res ->
             fst res = Raise x ->
             x = UnicodeDecodeError /\ fst (snd res) = g);
    [|now apply H].
  unfold run_round, bind at 1, lift_env; cbn [fst snd].
  pose proof (poll_events_raises (clock e) None e) as Hp.
  fold (poll_window e) in Hp.
  destruct (poll_window e) as [[key|y|] e1]; cbn [fst] in Hp.
  - destruct (is_quit key); [intros res <-; discriminate|].
    unfold bind, ret.
    assert (Hu : exists g1,
               (if truthy key
                then match key with
                     | Some k => update_direction k
                     | None => fun s => (Ret tt, s)
                     end
                else fun s => (Ret tt, s)) (g, e1) = (Ret tt, (g1, e1)) /\
               snake g1 = snake g /\
               width g1 = width g /\ height g1 = height g).
    { destruct (truthy key); [destruct key as [k|]|];
        try (exists g; split; [reflexivity | repeat split]).
      destruct (update_direction_cases k g e1) as [H | (d & _ & H)];
        rewrite H; eexists; (split; [reflexivity | repeat split]). }
    destruct Hu as (g1 & -> & Hs1 & Hw1 & Hh1).
    pose proof (move_snake_never_raises fuel g1 e1 x) as Hm.
    rewrite Hs1, Hw1, Hh1 in Hm. specialize (Hm Hne Hw Hh).
    destruct (move_snake fuel (g1, e1)) as [[[]|y|] [g2 e2]];
      cbn [fst] in Hm; intros res <-; cbn [fst]; congruence.
  - intros res <-. cbn [fst snd]. intros [= <-].
    split; [now apply Hp | reflexivity].
  - intros res <-. discriminate.
Qed.

(** X15. From a reachable game a round of the loop can raise nothing but
    [UnicodeDecodeError], and when it does the game object is untouched:
    the fault lies with a byte typed, met while polling, never with the
    tick. *)
Theorem round_fails_only_on_bad_byte
  (fuel : nat) (g : Game) (e : Env) (x : exn) :
  reachable g ->
  fst (run_round fuel (g, e)) = Raise x ->
  x = UnicodeDecodeError /\ fst (snd (run_round fuel (g, e))) = g.
Proof.
  intros Hr.
  pose proof (reachable_well_formed g Hr) as (Hne & _ & _).
  pose proof (reachable_in_bounds g Hr) as (Hw & Hh & _).
  now apply run_round_raises.
Qed.

Lemma round_fails_only_on_bad_byte_witness :
  UnicodeDecodeError = UnicodeDecodeError /\
  fst (snd (run_round 0 (fresh_game, counting_env ["233"%char] [Poll []])))
    = fresh_game.
Proof.
  apply (round_fails_only_on_bad_byte 0 fresh_game
           (counting_env ["233"%char] [Poll []]) UnicodeDecodeError).
  - exact fresh_game_reachable.
  - reflexivity.
Defined.

(** ** Drawing *)

Lemma index_in_range {A} (l : list A) (i : Z) :
  0 <= i < Z.of_nat (List.length l) -> index l i = Some (Z.to_nat i).
Proof.
  intros H. unfold index.
  destruct (0 <=? i) eqn:E1; [|apply Z.leb_gt in E1; lia].
  destruct (i <? Z.of_nat (List.length l)) eqn:E2;
    [reflexivity | apply Z.ltb_ge in E2; lia].
Qed.

Lemma length_update {A} (l : list A) (i : nat) (v : A) :
  List.length (update l i v) = List.length l.
Proof.
  revert i; induction l as [|a l IH]; intros [|i]; cbn; auto.
Qed.

Lemma nth_update {A} (l : list A) (i j : nat) (v d : A) :
  (i < List.length l)%nat ->
  nth j (update l i v) d = if Nat.eqb j i then v else nth j l d.
Proof.
  revert i j; induction l as [|a l IH]; intros i j Hi; [cbn in Hi; lia|].
  destruct i as [|i], j as [|j]; cbn [update nth Nat.eqb]; try reflexivity.
  apply IH. cbn in Hi. lia.
Qed.

Lemma Forall_update {A} (P : A -> Prop) (l : list A) (i : nat) (v : A) :
  Forall P l -> P v -> Forall P (update l i v).
Proof.
  intros Hl Hv. revert i. induction Hl as [|a l Ha Hl IH]; intros [|i];
    cbn [update]; constructor; auto.
Qed.

Lemma shaped_row w h b (y : nat) :
  shaped w h b -> (Z.of_nat y < h) ->
  Z.of_nat (List.length (nth y b [])) = w.
Proof.
  intros [Hlen Hrows] Hy. rewrite Forall_forall in Hrows.
  apply Hrows. apply nth_In. lia.
Qed.

Lemma shaped_put w h b y x ch :
  shaped w h b -> Z.of_nat y < h -> shaped w h (put b y x ch).
Proof.
  intros Hs Hy. pose proof (shaped_row w h b y Hs Hy) as Hr.
  destruct Hs as [Hlen Hrows]. unfold put. split.
  - now rewrite length_update.
  - apply Forall_update; [assumption|]. now rewrite length_update.
Qed.

Lemma cell_put w h b y x ch i j :
  shaped w h b -> Z.of_nat y < h -> Z.of_nat x < w ->
  cell (put b y x ch) i j =
  if Nat.eqb i y && Nat.eqb j x then ch else cell b i j.
Proof.
  intros Hs Hy Hx. pose proof (shaped_row w h b y Hs Hy) as Hr.
  destruct Hs as [Hlen Hrows]. unfold cell, put.
  rewrite (nth_update b y i) by lia.
  destruct (Nat.eqb i y) eqn:E; cbn [andb]; [|reflexivity].
  apply Nat.eqb_eq in E. subst i.
  rewrite nth_update by lia. reflexivity.
Qed.

Lemma paint_put w h b (y x : Z) ch :
  shaped w h b -> 0 <= y < h -> 0 <= x < w ->
  paint y x ch b = (Ret tt, put b (Z.to_nat y) (Z.to_nat x) ch).
Proof.
  intros Hs Hy Hx.
  pose proof (shaped_row w h b (Z.to_nat y) Hs ltac:(lia)) as Hr.
  destruct Hs as [Hlen Hrows]. unfold paint.
  rewrite index_in_range by lia. cbn beta iota zeta.
  rewrite index_in_range by lia. reflexivity.
Qed.

(** A list of assignments inside the board runs to its end, keeps the
    shape of the board, and leaves in each cell what was assigned to it
    last. *)
Lemma strokes_run w h (cmds : list (Z * Z * ascii)) :
  Forall (fun c => 0 <= fst (fst c) < h /\ 0 <= snd (fst c) < w) cmds ->
  forall b,
    shaped w h b ->
    exists b',
      for_each cmds stroke b = (Ret tt, b') /\
      shaped w h b' /\
      forall y x, 0 <= y < h -> 0 <= x < w ->
        cell b' (Z.to_nat y) (Z.to_nat x) =
        inked cmds y x (cell b (Z.to_nat y) (Z.to_nat x)).
Proof.
  induction 1 as [|[[cy cx] ch] cmds [Hy Hx] _ IH]; intros b Hs.
  - exists b. repeat split; try apply Hs. 
  - cbn [fst snd] in Hy, Hx.
    destruct (IH (put b (Z.to_nat cy) (Z.to_nat cx) ch))
      as (b' & Hrun & Hs' & Hcell).
    { apply shaped_put; [assumption | lia]. }
    exists b'. split; [|split; [exact Hs'|]].
    + cbn [for_each]. unfold bind. cbn [stroke].
      rewrite (paint_put w h) by assumption. exact Hrun.
    + intros y x Hyr Hxr. rewrite (Hcell y x Hyr Hxr). cbn [inked].
      rewrite (cell_put w h) by (try assumption; lia).
      f_equal.
      replace (Nat.eqb (Z.to_nat y) (Z.to_nat cy)) with (y =? cy).
      2:{ destruct (y =? cy) eqn:E.
          - apply Z.eqb_eq in E. subst. symmetry. apply Nat.eqb_refl.
          - apply Z.eqb_neq in E. symmetry. apply Nat.eqb_neq. lia. }
      replace (Nat.eqb (Z.to_nat x) (Z.to_nat cx)) with (x =? cx).
      2:{ destruct (x =? cx) eqn:E.
          - apply Z.eqb_eq in E. subst. symmetry. apply Nat.eqb_refl.
          - apply Z.eqb_neq in E. symmetry. apply Nat.eqb_neq. lia. }
      reflexivity.
Qed.

Lemma for_each_app {S A} (l1 l2 : list A) (body : A -> M S unit) (s : S) :
  for_each (l1 ++ l2) body s = (for_each l1 body ;;; for_each l2 body) s.
Proof.
  revert s. induction l1 as [|a l1 IH]; intros s; [reflexivity|].
  cbn [app for_each]. unfold bind.
  destruct (body a s) as [[[]|x|] s1]; try reflexivity.
  rewrite IH. reflexivity.
Qed.

(** A loop whose body makes the assignments [k a] makes those of
    [flat_map k l]. *)
Lemma for_each_strokes {A} (l : list A) (body : A -> M Board unit)
      (k : A -> list (Z * Z * ascii)) :
  (forall a b, body a b = for_each (k a) stroke b) ->
  forall b, for_each l body b = for_each (flat_map k l) stroke b.
Proof.
  intros Hbody. induction l as [|a l IH]; intros b; [reflexivity|].
  cbn [for_each flat_map]. rewrite for_each_app.
  unfold bind. rewrite Hbody.
  destruct (for_each (k a) stroke b) as [[[]|x|] b1]; try reflexivity.
  apply IH.
Qed.

Lemma stroke_pair (c1 c2 : Z * Z * ascii) (b : Board) :
  (stroke c1 ;;; stroke c2) b = for_each [c1; c2] stroke b.
Proof.
  cbn [for_each]. unfold bind, ret.
  destruct (stroke c1 b) as [[[]|x|] b1]; try reflexivity.
  destruct (stroke c2 b1) as [[[]|x|] b2]; reflexivity.
Qed.

Lemma stroke_single (c : Z * Z * ascii) (b : Board) :
  stroke c b = for_each [c] stroke b.
Proof.
  cbn [for_each]. unfold bind, ret.
  destruct (stroke c b) as [[[]|x|] b1]; reflexivity.
Qed.

Lemma flat_map_single {A B} (f : A -> B) (l : list A) :
  flat_map (fun a => [f a]) l = map f l.
Proof.
  induction l as [|a l IH]; [reflexivity|]. cbn. now rewrite IH.
Qed.

(** [draw] fills the board by the assignments of [strokes], in order. *)
Lemma draw_board_strokes (g : Game) (b : Board) :
  draw_board g b = for_each (strokes g) stroke b.
Proof.
  unfold draw_board, strokes.
  rewrite for_each_app. unfold bind.
  rewrite (for_each_strokes (range (width g)) _
             (fun x => [(0, x, "#"%char); (height g - 1, x, "#"%char)]))
    by (intros x b'; apply (stroke_pair (0, x, _) (height g - 1, x, _))).
  destruct (for_each (flat_map _ (range (width g))) stroke b)
    as [[[]|x|] b1]; try reflexivity.
  rewrite for_each_app. unfold bind.
  rewrite (for_each_strokes (range (height g)) _
             (fun y => [(y, 0, "#"%char); (y, width g - 1, "#"%char)]))
    by (intros y b'; apply (stroke_pair (y, 0, _) (y, width g - 1, _))).
  destruct (for_each (flat_map _ (range (height g))) stroke b1)
    as [[[]|x|] b2]; try reflexivity.
  rewrite for_each_app. unfold bind.
  rewrite (for_each_strokes (enumerate (snake g)) _
             (fun ixy : nat * Position =>
                [let '(i, (x, y)) := ixy in
                 (y, x, if Nat.eqb i 0 then "@"%char else "*"%char)])).
  2:{ intros [i [x y]] b'. destruct (Nat.eqb i 0);
        apply (stroke_single (y, x, _)). }
  rewrite flat_map_single.
  destruct (for_each (map _ (enumerate (snake g))) stroke b2)
    as [[[]|x|] b3]; try reflexivity.
  destruct (food g) as [fx fy]. apply (stroke_single (fy, fx, _)).
Qed.

Lemma inked_app (c1 c2 : list (Z * Z * ascii)) (y x : Z) (base : ascii) :
  inked (c1 ++ c2) y x base = inked c2 y x (inked c1 y x base).
Proof.
  revert base. induction c1 as [|[[cy cx] ch] c1 IH]; intros base;
    [reflexivity|]. cbn [app inked]. apply IH.
Qed.

Lemma In_range (n x : Z) : In x (range n) <-> 0 <= x < n.
Proof.
  unfold range. rewrite in_map_iff. split.
  - intros (i & <- & Hi). apply in_seq in Hi. lia.
  - intros Hx. exists (Z.to_nat x). split; [lia|]. apply in_seq. lia.
Qed.

Lemma existsb_range (n x : Z) :
  0 <= x < n -> existsb (Z.eqb x) (range n) = true.
Proof.
  intros Hx. apply existsb_exists. exists x. split.
  - now apply In_range.
  - apply Z.eqb_refl.
Qed.

Lemma inked_rows (top bottom : Z) (l : list Z) (y x : Z) :
  forall base,
    inked (flat_map (fun x' => [(top, x', "#"%char); (bottom, x', "#"%char)])
             l) y x base =
    if ((y =? top) || (y =? bottom)) && existsb (Z.eqb x) l
    then "#"%char else base.
Proof.
  induction l as [|a l IH]; intros base.
  - cbn. now rewrite andb_false_r.
  - cbn [flat_map app inked existsb]. rewrite IH.
    destruct (y =? top), (y =? bottom), (x =? a), (existsb (Z.eqb x) l);
      reflexivity.
Qed.

Lemma inked_columns (left right : Z) (l : list Z) (y x : Z) :
  forall base,
    inked (flat_map (fun y' => [(y', left, "#"%char); (y', right, "#"%char)])
             l) y x base =
    if ((x =? left) || (x =? right)) && existsb (Z.eqb y) l
    then "#"%char else base.
Proof.
  induction l as [|a l IH]; intros base.
  - cbn. now rewrite andb_false_r.
  - cbn [flat_map app inked existsb]. rewrite IH.
    destruct (x =? left), (x =? right), (y =? a), (existsb (Z.eqb y) l);
      reflexivity.
Qed.

Lemma inked_tail (t : list Position) (y x : Z) :
  forall k base,
    inked (map (fun ixy : nat * Position =>
                  let '(i, (sx, sy)) := ixy in
                  (sy, sx, if Nat.eqb i 0 then "@"%char else "*"%char))
             (combine (seq (S k) (List.length t)) t)) y x base =
    if mem (x, y) t then "*"%char else base.
Proof.
  induction t as [|[sx sy] t IH]; intros k base; [reflexivity|].
  cbn [List.length seq combine map inked Nat.eqb].
  rewrite IH.
  change (mem (x, y) ((sx, sy) :: t))
    with (pos_eqb (x, y) (sx, sy) || mem (x, y) t).
  unfold pos_eqb; cbn [fst snd].
  destruct (y =? sy), (x =? sx), (mem (x, y) t); reflexivity.
Qed.

Lemma inked_snake (l : list Position) (y x : Z) (base : ascii) :
  inked (map (fun ixy : nat * Position =>
                let '(i, (sx, sy)) := ixy in
                (sy, sx, if Nat.eqb i 0 then "@"%char else "*"%char))
           (enumerate l)) y x base =
  if mem (x, y) (tl l) then "*"%char
  else if mem (x, y) (firstn 1 l) then "@"%char else base.
Proof.
  destruct l as [|[hx hy] t]; [reflexivity|].
  unfold enumerate.
  cbn [List.length seq combine map inked Nat.eqb tl firstn].
  rewrite inked_tail.
  change (mem (x, y) [(hx, hy)]) with (pos_eqb (x, y) (hx, hy) || false).
  unfold pos_eqb; cbn [fst snd].
  destruct (y =? hy), (x =? hx), (mem (x, y) t); reflexivity.
Qed.

(** What the assignments of [draw] leave in a cell of the board is the
    glyph of that cell. *)
Lemma inked_strokes (g : Game) (y x : Z) :
  0 <= y < height g -> 0 <= x < width g ->
  inked (strokes g) y x " "%char = glyph g (x, y).
Proof.
  intros Hy Hx. unfold strokes, glyph.
  rewrite !inked_app, inked_rows, inked_columns, inked_snake.
  rewrite !existsb_range by assumption. rewrite !andb_true_r.
  cbn [inked fst snd]. unfold pos_eqb; cbn [fst snd].
  destruct (food g) as [fx fy]; cbn [fst snd].
  destruct (y =? fy), (x =? fx); cbn [andb];
    destruct (mem (x, y) (tl (snake g)));
    destruct (mem (x, y) (firstn 1 (snake g)));
    destruct (x =? 0), (x =? width g - 1), (y =? 0), (y =? height g - 1);
    reflexivity.
Qed.

Lemma nth_map_range {A} (f : Z -> A) (n : Z) (i : nat) (d : A) :
  (i < Z.to_nat n)%nat -> nth i (map f (range n)) d = f (Z.of_nat i).
Proof.
  intros Hi. unfold range. rewrite map_map.
  rewrite (nth_indep _ d (f (Z.of_nat 0)))
    by (rewrite length_map, length_seq; lia).
  rewrite (map_nth (fun k => f (Z.of_nat k))).
  now rewrite seq_nth by lia.
Qed.

Lemma length_range (n : Z) : List.length (range n) = Z.to_nat n.
Proof. unfold range. now rewrite length_map, length_seq. Qed.

Lemma shaped_table (f : Z -> Z -> ascii) (w h : Z) :
  0 <= w -> 0 <= h ->
  shaped w h (map (fun y => map (fun x => f y x) (range w)) (range h)).
Proof.
  intros Hw Hh. split.
  - rewrite length_map, length_range. lia.
  - apply Forall_forall. intros row Hrow.
    apply in_map_iff in Hrow as (y & <- & _).
    rewrite length_map, length_range. lia.
Qed.

Lemma cell_table (f : Z -> Z -> ascii) (w h y x : Z) :
  0 <= y < h -> 0 <= x < w ->
  cell (map (fun y => map (fun x => f y x) (range w)) (range h))
       (Z.to_nat y) (Z.to_nat x) = f y x.
Proof.
  intros Hy Hx. unfold cell.
  rewrite (nth_map_range (fun y => map (fun x => f y x) (range w))) by lia.
  rewrite (nth_map_range (fun x => f (Z.of_nat (Z.to_nat y)) x)) by lia.
  now rewrite !Z2Nat.id by lia.
Qed.

(** Boards of one shape with the same cells are the same board. *)
Lemma board_ext (w h : Z) (b b' : Board) :
  shaped w h b -> shaped w h b' ->
  (forall y x, 0 <= y < h -> 0 <= x < w ->
     cell b (Z.to_nat y) (Z.to_nat x) = cell b' (Z.to_nat y) (Z.to_nat x)) ->
  b = b'.
Proof.
  intros Hs Hs' Hcell.
  apply (nth_ext b b' [] []).
  - destruct Hs as [Hl _], Hs' as [Hl' _]. lia.
  - intros i Hi.
    assert (Hih : Z.of_nat i < h) by (destruct Hs as [Hl _]; lia).
    pose proof (shaped_row w h b i Hs Hih) as Hr.
    pose proof (shaped_row w h b' i Hs' Hih) as Hr'.
    apply (nth_ext _ _ " "%char " "%char); [lia|].
    intros j Hj.
    specialize (Hcell (Z.of_nat i) (Z.of_nat j) ltac:(lia) ltac:(lia)).
    now rewrite !Nat2Z.id in Hcell.
Qed.

Lemma strokes_on_board (g : Game) :
  1 <= width g -> 1 <= height g ->
  (forall p, p = food g \/ In p (snake g) ->
     0 <= fst p < width g /\ 0 <= snd p < height g) ->
  Forall (fun c => 0 <= fst (fst c) < height g /\
                   0 <= snd (fst c) < width g) (strokes g).
Proof.
  intros Hw Hh Hon. unfold strokes.
  repeat (apply Forall_app; split).
  - apply Forall_flat_map, Forall_forall. intros x Hx.
    apply In_range in Hx.
    repeat constructor; cbn [fst snd]; lia.
  - apply Forall_flat_map, Forall_forall. intros y Hy.
    apply In_range in Hy.
    repeat constructor; cbn [fst snd]; lia.
  - apply Forall_map, Forall_forall. intros [i [x y]] Hin.
    unfold enumerate in Hin. apply in_combine_r in Hin.
    cbn [fst snd]. destruct (Hon (x, y) (or_intror Hin)) as [Hx Hy].
    cbn [fst snd] in *. lia.
  - constructor; [|constructor]. cbn [fst snd].
    destruct (Hon (food g) (or_introl eq_refl)). lia.
Qed.

(** When the snake and the food are on the board, filling the blank board
    gives the picture of the game. *)
Lemma draw_board_picture (g : Game) :
  1 <= width g -> 1 <= height g ->
  (forall p, p = food g \/ In p (snake g) ->
     0 <= fst p < width g /\ 0 <= snd p < height g) ->
  draw_board g (blank (width g) (height g)) = (Ret tt, picture g).
Proof.
  intros Hw Hh Hon. rewrite draw_board_strokes.
  destruct (strokes_run (width g) (height g) (strokes g)
              (strokes_on_board g Hw Hh Hon)
              (blank (width g) (height g)))
    as (b' & Hrun & Hs' & Hcell).
  { apply (shaped_table (fun _ _ => " "%char)); lia. }
  rewrite Hrun. f_equal.
  apply (board_ext (width g) (height g)); [exact Hs'| |].
  - apply (shaped_table (fun y x => glyph g (x, y))); lia.
  - intros y x Hy Hx. rewrite (Hcell y x Hy Hx).
    unfold blank, picture.
    rewrite (cell_table (fun _ _ => " "%char)) by assumption.
    rewrite (cell_table (fun y x => glyph g (x, y))) by assumption.
    now apply inked_strokes.
Qed.

Lemma for_each_print (f : list ascii -> string) (rows : Board) (c : Console) :
  for_each rows (fun row => print (f row)) c =
  (Ret tt, (fst c, snd c ++ map (fun row => Line (f row)) rows)).
Proof.
  revert c. induction rows as [|row rows IH]; intros [w log].
  - cbn. now rewrite app_nil_r.
  - cbn [for_each map]. unfold bind, print, emit. cbn [fst snd].
    rewrite IH. cbn [fst snd]. now rewrite <- app_assoc.
Qed.

Lemma draw_frame (g : Game) (e : Env) (log : list output) (b : Board) :
  draw_board g (blank (width g) (height g)) = (Ret tt, b) ->
  draw ((g, e), log) = (Ret tt, ((g, e), log ++ frame b (score g))).
Proof.
  intros Hb. unfold draw, bind at 1, clear_screen, emit. cbn [fst snd].
  unfold bind at 1, on_world, self. cbn [fst snd]. rewrite Hb.
  unfold bind at 1. rewrite for_each_print. cbn [fst snd].
  unfold bind, print, emit. cbn [fst snd]. unfold frame.
  rewrite <- !app_assoc. reflexivity.
Qed.

(** X16. When the snake and the food are on the board (border included),
    [draw] returns, leaves the game alone and writes one frame: the screen
    cleared, then [height] lines of [width] characters, the character at
    column [x] of line [y] being the glyph of [(x, y)] (the food hides the
    snake, a later segment an earlier one, the snake the border), then the
    score line and the controls line. *)
Theorem draw_writes_the_picture (g : Game) (e : Env) (log : list output) :
  1 <= width g -> 1 <= height g ->
  (forall p, p = food g \/ In p (snake g) ->
     0 <= fst p < width g /\ 0 <= snd p < height g) ->
  draw ((g, e), log) =
    (Ret tt, ((g, e), log ++ frame (picture g) (score g))) /\
  Z.of_nat (List.length (picture g)) = height g /\
  (forall row, In row (picture g) -> Z.of_nat (List.length row) = width g) /\
  (forall y x, 0 <= y < height g -> 0 <= x < width g ->
     cell (picture g) (Z.to_nat y) (Z.to_nat x) = glyph g (x, y)).
Proof.
  intros Hw Hh Hon.
  pose proof (shaped_table (fun y x => glyph g (x, y)) (width g) (height g)
                ltac:(lia) ltac:(lia)) as [Hlen Hrows].
  fold (picture g) in Hlen, Hrows.
  split; [|split; [exact Hlen | split]].
  - apply draw_frame. now apply draw_board_picture.
  - now apply Forall_forall.
  - intros y x Hy Hx. unfold picture.
    now rewrite (cell_table (fun y x => glyph g (x, y))).
Qed.

Lemma draw_writes_the_picture_witness :
  draw ((overlapping, counting_env [] []), []) =
    (Ret tt,
     ((overlapping, counting_env [] []),
      [Cleared; Line "*######"; Line "#     #"; Line "# $@  #";
       Line "#     #"; Line "#####*#"; Line "Score: 10";
       Line "Controls: W/A/S/D or Arrow Keys to move, Q to quit"])).
Proof.
  refine (proj1 (draw_writes_the_picture overlapping (counting_env [] []) []
                   _ _ _)).
  - vm_compute. discriminate.
  - vm_compute. discriminate.
  - intros p [-> | Hin].
    + vm_compute. repeat split; discriminate.
    + simpl in Hin.
      destruct Hin as [<- | [<- | [<- | [<- | []]]]];
        vm_compute; repeat split; discriminate.
Defined.

(** X17. The frame of a reachable game shows the game without overlap:
    [draw] fills the board without fault, and on it the food cell holds
    "$", the head "@", every other segment "*", every border cell "#", and
    every other cell a blank. *)
Theorem frame_shows_the_game (g : Game) :
  reachable g ->
  exists b,
    draw_board g (blank (width g) (height g)) = (Ret tt, b) /\
    forall y x, 0 <= y < height g -> 0 <= x < width g ->
      let ch := cell b (Z.to_nat y) (Z.to_nat x) in
      ((x, y) = food g -> ch = "$"%char) /\
      (hd_error (snake g) = Some (x, y) -> ch = "@"%char) /\
      (In (x, y) (tl (snake g)) -> ch = "*"%char) /\
      (x = 0 \/ x = width g - 1 \/ y = 0 \/ y = height g - 1 ->
       ch = "#"%char) /\
      ((x, y) <> food g -> ~ In (x, y) (snake g) ->
       0 < x < width g - 1 -> 0 < y < height g - 1 -> ch = " "%char).
Proof.
  intros Hr.
  pose proof (reachable_well_formed g Hr) as (Hne & Hnd & Hfood).
  pose proof (reachable_in_bounds g Hr) as (Hw & Hh & Hsn & Hf).
  rewrite Forall_forall in Hsn.
  assert (Hon : forall p, p = food g \/ In p (snake g) ->
                  0 <= fst p < width g /\ 0 <= snd p < height g).
  { intros p [-> | Hin]; [destruct Hf | destruct (Hsn p Hin)]; lia. }
  exists (picture g). split; [apply draw_board_picture; (lia || exact Hon)|].
  intros y x Hy Hx. cbv zeta. unfold picture.
  rewrite (cell_table (fun y x => glyph g (x, y))) by assumption.
  unfold glyph. cbn [fst snd].
  destruct (snake g) as [|hd t] eqn:Es; [now elim Hne|].
  cbn [tl firstn hd_error].
  change (mem (x, y) [hd]) with (pos_eqb (x, y) hd || false).
  rewrite orb_false_r.
  apply NoDup_cons_iff in Hnd as [Hhd _].
  destruct (pos_eqb (x, y) (food g)) eqn:Efood;
    [apply pos_eqb_eq in Efood | apply pos_eqb_neq in Efood];
  (destruct (mem (x, y) t) eqn:Etail;
    [apply mem_In in Etail | apply mem_not_In in Etail]);
  (destruct (pos_eqb (x, y) hd) eqn:Ehd;
    [apply pos_eqb_eq in Ehd | apply pos_eqb_neq in Ehd]);
  try (assert (Hint : interior (width g) (height g) (x, y))
         by (first [ rewrite Efood; exact Hf
                   | apply Hsn; right; exact Etail
                   | apply Hsn; left; symmetry; exact Ehd ]);
       unfold interior in Hint; cbn [fst snd] in Hint);
  (destruct ((x =? 0) || (x =? width g - 1) ||
             (y =? 0) || (y =? height g - 1)) eqn:Eb;
    [ rewrite !orb_true_iff, !Z.eqb_eq in Eb
    | rewrite !orb_false_iff, !Z.eqb_neq in Eb ]);
  repeat split; intros; try reflexivity; try congruence;
    try (exfalso; lia);
    try (exfalso; apply Hfood; rewrite <- Efood; simpl; tauto);
    try (exfalso; subst hd; tauto);
    try (exfalso; simpl in *; intuition congruence).
Qed.

Lemma frame_shows_the_game_witness :
  exists b,
    draw_board fed_game (blank (width fed_game) (height fed_game))
      = (Ret tt, b) /\
    forall y x, 0 <= y < height fed_game -> 0 <= x < width fed_game ->
      let ch := cell b (Z.to_nat y) (Z.to_nat x) in
      ((x, y) = food fed_game -> ch = "$"%char) /\
      (hd_error (snake fed_game) = Some (x, y) -> ch = "@"%char) /\
      (In (x, y) (tl (snake fed_game)) -> ch = "*"%char) /\
      (x = 0 \/ x = width fed_game - 1 \/ y = 0 \/ y = height fed_game - 1 ->
       ch = "#"%char) /\
      ((x, y) <> food fed_game -> ~ In (x, y) (snake fed_game) ->
       0 < x < width fed_game - 1 -> 0 < y < height fed_game - 1 ->
       ch = " "%char).
Proof.
  exact (frame_shows_the_game fed_game fed_game_reachable).
Defined.

(** ** The loop with its drawing, [run] and [main] *)

Lemma draw_reachable (g : Game) (e : Env) (log : list output) :
  reachable g ->
  draw ((g, e), log) = (Ret tt, ((g, e), log ++ frame (picture g) (score g))).
Proof.
  intros Hr.
  pose proof (reachable_in_bounds g Hr) as (Hw & Hh & Hsn & Hf).
  rewrite Forall_forall in Hsn.
  apply draw_frame, draw_board_picture; try lia.
  intros p [-> | Hin]; [destruct Hf | destruct (Hsn p Hin)]; lia.
Qed.

(** The loop with the drawing in does to the game and the world what the
    loop without it does, and only adds to what is on the terminal. *)
Lemma game_loop_run_loop (fuel rounds : nat) :
  forall g e log,
    reachable g ->
    exists more,
      game_loop rounds fuel ((g, e), log) =
      (fst (run_loop rounds fuel (g, e)),
       (snd (run_loop rounds fuel (g, e)), log ++ more)).
Proof.
  assert (H : forall g e log res,
             reachable g ->
             run_loop rounds fuel (g, e) = res ->
             exists more,
               game_loop rounds fuel ((g, e), log) =
               (fst res, (snd res, log ++ more))).
  2:{ intros g e log Hr. now apply H. }
  induction rounds as [|rounds IH]; intros g e log res Hr;
    cbn [game_loop run_loop]; unfold bind, on_world, self; cbn [fst snd].
  - intros <-. exists []. rewrite app_nil_r. now destruct (game_over g).
  - destruct (game_over g);
      [intros <-; exists []; now rewrite app_nil_r|].
    match goal with
    | |- context [draw ?c] =>
        pose proof (draw_reachable g e log Hr : draw c = _) as Hd
    end.
    rewrite Hd. cbn [fst snd].
    destruct (run_round fuel (g, e)) as [[[|]|x|] [g1 e1]] eqn:Hrr;
      cbn [fst snd]; try (intros <-; eexists; reflexivity).
    apply run_round_reachable in Hrr; [|exact Hr].
    intros Hres.
    destruct (IH g1 e1 (log ++ frame (picture g) (score g)) res Hrr Hres)
      as (more & Hmore).
    exists (frame (picture g) (score g) ++ more).
    rewrite app_assoc. exact Hmore.
Qed.

(** X18. Drawing never disturbs play.  From a reachable game the loop of
    [run], with a frame drawn every round, ends as the loop without the
    drawing ends and leaves the same game and the same world; it only
    adds to what is on the terminal. *)
Theorem drawing_does_not_disturb_play
  (rounds fuel : nat) (g : Game) (e : Env) (log : list output) :
  reachable g ->
  fst (game_loop rounds fuel ((g, e), log)) = fst (run_loop rounds fuel (g, e))
  /\
  fst (snd (game_loop rounds fuel ((g, e), log)))
    = snd (run_loop rounds fuel (g, e)) /\
  exists more, snd (snd (game_loop rounds fuel ((g, e), log))) = log ++ more.
Proof.
  intros Hr.
  destruct (game_loop_run_loop fuel rounds g e log Hr) as (more & ->).
  cbn [fst snd]. eauto.
Qed.

Lemma drawing_does_not_disturb_play_witness :
  fst (game_loop 10 0
         ((before_gap, counting_env [] [Expire; Expire; Expire; Expire]), []))
    = fst (run_loop 10 0
             (before_gap, counting_env [] [Expire; Expire; Expire; Expire]))
  /\
  fst (snd (game_loop 10 0
         ((before_gap, counting_env [] [Expire; Expire; Expire; Expire]), [])))
    = snd (run_loop 10 0
             (before_gap, counting_env [] [Expire; Expire; Expire; Expire]))
  /\
  exists more,
    snd (snd (game_loop 10 0
         ((before_gap, counting_env [] [Expire; Expire; Expire; Expire]), [])))
    = [] ++ more.
Proof.
  apply (drawing_does_not_disturb_play 10 0 before_gap
           (counting_env [] [Expire; Expire; Expire; Expire]) []).
  apply reach_init with (w := 10) (h := 10) (fuel := 1%nat)
    (e := mkEnv (fun _ => 1) 0 [] [])
    (e' := advance (mkEnv (fun _ => 1) 0 [] [])).
  reflexivity.
Defined.

Lemma run_loop_raises (fuel rounds : nat) :
  forall g e x,
    reachable g ->
    fst (run_loop rounds fuel (g, e)) = Raise x -> x = UnicodeDecodeError.
Proof.
  assert (H : forall g e x res,
             reachable g -> run_loop rounds fuel (g, e) = res ->
             fst res = Raise x -> x = UnicodeDecodeError).
  2:{ intros g e x Hr. now apply (H g e x _ Hr eq_refl). }
  induction rounds as [|rounds IH]; intros g e x res Hr;
    cbn [run_loop]; unfold bind, self; cbn [fst snd];
    destruct (game_over g); try (intros <-; discriminate).
  pose proof (reachable_well_formed g Hr) as (Hne & _ & _).
  pose proof (reachable_in_bounds g Hr) as (Hw & Hh & _).
  pose proof (fun y => run_round_raises fuel g e y Hne Hw Hh) as Hround.
  destruct (run_round fuel (g, e)) as [[[|]|y|] [g1 e1]] eqn:Hrr;
    cbn [fst snd] in *; try (intros <-; discriminate).
  - apply IH. eapply run_round_reachable; eassumption.
  - intros <-. cbn [fst]. intros [= <-]. now apply (Hround y).
Qed.

Lemma run_starts (rounds fuel : nat) (g : Game) (e : Env)
      (log : list output) (c : ascii) (rest : list ascii) :
  kbd e = c :: rest ->
  run rounds fuel ((g, e), log) =
  (game_loop rounds fuel ;;; game_over_screen)
    ((g, set_kbd rest e),
     (log ++ [Line "Welcome to Terminal Snake!"])
       ++ [Line "Press any key to start..."]).
Proof.
  intros Hk. unfold run, print, emit.
  unfold bind at 1 2 3, on_world, lift_env, getch. cbn [fst snd].
  rewrite Hk. reflexivity.
Qed.

Lemma game_over_screen_runs (g : Game) (e : Env) (log : list output) :
  game_over_screen ((g, e), log) =
  (match kbd e with [] => Hang | _ :: _ => Ret tt end,
   ((g, set_kbd (tl (kbd e)) e),
    log ++ [Cleared; Line "Game Over!";
            Line ("Final Score: " ++ decimal (score g));
            Line "Press any key to exit..."])) \/
  (kbd e = [] /\
   game_over_screen ((g, e), log) =
   (Hang,
    ((g, e),
     log ++ [Cleared; Line "Game Over!";
             Line ("Final Score: " ++ decimal (score g));
             Line "Press any key to exit..."]))).
Proof.
  unfold game_over_screen, clear_screen, print, emit, bind, on_world,
    self, lift_env, getch, ret. cbn [fst snd].
  rewrite <- !app_assoc. cbn [app].
  destruct (kbd e) as [|c rest]; [right | left]; auto.
Qed.

(** X19. [run] from the welcome prompt to the final score.  Started on a
    reachable game with a key waiting, [run] takes that one byte for the
    prompt without reading it as a command, plays the loop on what is
    behind it, and when the loop ends shows the game over screen with the
    score of the game the loop left; it then takes one more byte for the
    exit prompt, and returns if and only if there is one. *)
Theorem run_from_prompt_to_final_score
  (rounds fuel : nat) (g g' : Game) (e e' : Env) (log : list output)
  (c : ascii) (rest : list ascii) :
  reachable g ->
  kbd e = c :: rest ->
  run_loop rounds fuel (g, set_kbd rest e) = (Ret tt, (g', e')) ->
  exists shown,
    snd (snd (run rounds fuel ((g, e), log))) =
      log ++ [Line "Welcome to Terminal Snake!";
              Line "Press any key to start..."]
          ++ shown
          ++ [Cleared; Line "Game Over!";
              Line ("Final Score: " ++ decimal (score g'));
              Line "Press any key to exit..."] /\
    fst (fst (snd (run rounds fuel ((g, e), log)))) = g' /\
    kbd (snd (fst (snd (run rounds fuel ((g, e), log))))) = tl (kbd e') /\
    (fst (run rounds fuel ((g, e), log)) = Ret tt <-> kbd e' <> []).
Proof.
  intros Hr Hk Hloop.
  remember (run rounds fuel ((g, e), log)) as res eqn:Eres.
  rewrite (run_starts rounds fuel g e log c rest Hk) in Eres.
  unfold bind in Eres.
  destruct (game_loop_run_loop fuel rounds g (set_kbd rest e)
              ((log ++ [Line "Welcome to Terminal Snake!"])
                 ++ [Line "Press any key to start..."]) Hr)
    as (shown & Hgl).
  rewrite Hloop in Hgl. cbn [fst snd] in Hgl.
  match type of Eres with
  | context [game_loop rounds fuel ?s] =>
      rewrite (Hgl : game_loop rounds fuel s = _) in Eres
  end.
  exists shown.
  assert (Hlog : forall tail : list output,
             (((log ++ [Line "Welcome to Terminal Snake!"])
                 ++ [Line "Press any key to start..."]) ++ shown) ++ tail =
             log ++ [Line "Welcome to Terminal Snake!";
                     Line "Press any key to start..."] ++ shown ++ tail).
  { intros tail. rewrite <- !app_assoc. reflexivity. }
  destruct (game_over_screen_runs g' e'
              (((log ++ [Line "Welcome to Terminal Snake!"])
                  ++ [Line "Press any key to start..."]) ++ shown))
    as [Hend | [Hempty Hend]];
    match type of Eres with
    | context [game_over_screen ?s] =>
        rewrite (Hend : game_over_screen s = _) in Eres
    end;
    subst res; cbn [fst snd kbd set_kbd]; rewrite Hlog.
  - repeat split; destruct (kbd e'); try discriminate; try reflexivity;
      congruence.
  - rewrite Hempty. repeat split; try discriminate; try reflexivity;
      congruence.
Qed.

Lemma before_gap_reachable : reachable before_gap.
Proof.
  apply reach_init with (w := 10) (h := 10) (fuel := 1%nat)
    (e := mkEnv (fun _ => 1) 0 [] [])
    (e' := advance (mkEnv (fun _ => 1) 0 [] [])).
  reflexivity.
Qed.

Lemma run_from_prompt_to_final_score_witness :
  exists shown,
    snd (snd (run 10 0
                ((before_gap, counting_env ["x"; "q"; "z"]%char [Poll []]),
                 []))) =
      [] ++ [Line "Welcome to Terminal Snake!";
             Line "Press any key to start..."]
         ++ shown
         ++ [Cleared; Line "Game Over!";
             Line ("Final Score: " ++ decimal (score before_gap));
             Line "Press any key to exit..."] /\
    fst (fst (snd (run 10 0
                ((before_gap, counting_env ["x"; "q"; "z"]%char [Poll []]),
                 [])))) = before_gap /\
    kbd (snd (fst (snd (run 10 0
                ((before_gap, counting_env ["x"; "q"; "z"]%char [Poll []]),
                 []))))) = tl (kbd (counting_env ["z"%char] [])) /\
    (fst (run 10 0
            ((before_gap, counting_env ["x"; "q"; "z"]%char [Poll []]), []))
       = Ret tt <-> kbd (counting_env ["z"%char] []) <> []).
Proof.
  apply (run_from_prompt_to_final_score 10 0 before_gap before_gap
           (counting_env ["x"; "q"; "z"]%char [Poll []])
           (counting_env ["z"%char] []) [] "x"%char ["q"; "z"]%char).
  - exact before_gap_reachable.
  - reflexivity.
  - reflexivity.
Defined.

Lemma run_waits (rounds fuel : nat) (g : Game) (e : Env)
      (log : list output) :
  kbd e = [] -> fst (run rounds fuel ((g, e), log)) = Hang.
Proof.
  intros Hk. unfold run, print, emit.
  unfold bind at 1 2 3, on_world, lift_env, getch. cbn [fst snd].
  now rewrite Hk.
Qed.

Lemma run_raises (rounds fuel : nat) (g : Game) (e : Env)
      (log : list output) (x : exn) :
  reachable g ->
  fst (run rounds fuel ((g, e), log)) = Raise x -> x = UnicodeDecodeError.
Proof.
  intros Hr. destruct (kbd e) as [|c rest] eqn:Hk.
  { rewrite run_waits by assumption. discriminate. }
  rewrite (run_starts rounds fuel g e log c rest Hk). unfold bind.
  destruct (game_loop_run_loop fuel rounds g (set_kbd rest e)
              ((log ++ [Line "Welcome to Terminal Snake!"])
                 ++ [Line "Press any key to start..."]) Hr)
    as (shown & Hgl).
  match goal with
  | |- context [game_loop rounds fuel ?s] =>
      rewrite (Hgl : game_loop rounds fuel s = _)
  end.
  pose proof (run_loop_raises fuel rounds g (set_kbd rest e)) as Hraise.
  destruct (run_loop rounds fuel (g, set_kbd rest e)) as [[[]|y|] [g1 e1]];
    cbn [fst snd] in *.
  - destruct (game_over_screen_runs g1 e1
                (((log ++ [Line "Welcome to Terminal Snake!"])
                    ++ [Line "Press any key to start..."]) ++ shown))
      as [Hend | [_ Hend]];
      match goal with
      | |- context [game_over_screen ?s] =>
          rewrite (Hend : game_over_screen s = _)
      end; cbn [fst]; [destruct (kbd e1)|]; discriminate.
  - intros [= <-]. now apply Hraise.
  - discriminate.
Qed.

Lemma play_raises (rounds fuel : nat) (s : Session) (x : exn) :
  fst (play rounds fuel s) = Raise x -> x = UnicodeDecodeError.
Proof.
  unfold play.
  destruct (init_default fuel (fst s)) as [[game|y|] e] eqn:Hinit.
  - pose proof (run_raises rounds fuel game e (snd s) x) as Hrun.
    destruct (run rounds fuel ((game, e), snd s)) as [r [w log]].
    cbn [fst] in *. apply Hrun.
    unfold init_default in Hinit. eapply reach_init; eassumption.
  - exfalso. unfold init_default, init, bind in Hinit.
    pose proof (generate_food_never_raises 40 20 [(40 / 2, 20 / 2)] fuel
                  ltac:(lia) ltac:(lia) (fst s) y) as Hg.
    destruct (generate_food _ _ _ _ _) as [[f|z|] e1]; cbn [fst] in Hg;
      try discriminate. congruence.
  - discriminate.
Qed.

(** X20. With the default board the only exception that ever reaches the
    handler of [main] is [UnicodeDecodeError], from a byte typed: the
    constructor, the drawing and the tick cannot fail.  [main] itself
    never raises: it returns with the diagnostic and the hint as the last
    two things written. *)
Theorem main_reports_only_bad_bytes
  (rounds fuel : nat) (s : Session) (x : exn) :
  fst (main rounds fuel s) <> Raise x /\
  (fst (play rounds fuel s) = Raise x ->
   x = UnicodeDecodeError /\
   fst (main rounds fuel s) = Ret tt /\
   snd (snd (main rounds fuel s)) =
     snd (snd (play rounds fuel s)) ++
     [Diagnosis UnicodeDecodeError;
      Line "Make sure you're running this on Windows with Python 3.x"]).
Proof.
  pose proof (play_raises rounds fuel s) as Hplay.
  unfold main.
  destruct (play rounds fuel s) as [[[]|y|] [e log]]; cbn [fst snd] in *;
    (split; [discriminate|]); try discriminate.
  intros [= <-]. rewrite (Hplay y eq_refl). repeat split.
Qed.

Lemma main_reports_only_bad_bytes_witness :
  UnicodeDecodeError = UnicodeDecodeError /\
  fst (main 10 1 (counting_env ["x"; "233"]%char [Poll []], [])) = Ret tt /\
  snd (snd (main 10 1 (counting_env ["x"; "233"]%char [Poll []], []))) =
    snd (snd (play 10 1 (counting_env ["x"; "233"]%char [Poll []], []))) ++
    [Diagnosis UnicodeDecodeError;
     Line "Make sure you're running this on Windows with Python 3.x"].
Proof.
  apply (proj2 (main_reports_only_bad_bytes 10 1
                  (counting_env ["x"; "233"]%char [Poll []], [])
                  UnicodeDecodeError)).
  reflexivity.
Defined.

(** ** How long the snake can get *)

Lemma length_span (n : Z) : List.length (span n) = Z.to_nat n.
Proof. unfold span. now rewrite length_map, length_seq. Qed.

Lemma length_cells (w h : Z) :
  3 <= w -> 3 <= h ->
  Z.of_nat (List.length (cells w h)) = (w - 2) * (h - 2).
Proof.
  intros Hw Hh.
  assert (Hc : List.length (cells w h) =
               (List.length (span (w - 2)) * List.length (span (h - 2)))%nat)
    by exact (length_prod (span (w - 2)) (span (h - 2))).
  rewrite Hc, !length_span. nia.
Qed.

(** X21. The snake never outgrows the interior, so the score is bounded:
    in every reachable game the snake has at most
    [(width - 2) * (height - 2)] segments and the score is at most ten
    times one less than that (6830 on the default board). *)
Theorem score_is_bounded (g : Game) :
  reachable g ->
  Z.of_nat (List.length (snake g)) <= (width g - 2) * (height g - 2) /\
  score g <= 10 * ((width g - 2) * (height g - 2) - 1).
Proof.
  intros Hr.
  pose proof (reachable_well_formed g Hr) as (_ & Hnd & _).
  pose proof (reachable_in_bounds g Hr) as (Hw & Hh & Hsn & _).
  assert (Hscore : score g = 10 * (Z.of_nat (List.length (snake g)) - 1)).
  { clear Hnd Hw Hh Hsn. revert g Hr. apply reachable_invariant.
    - intros w h fuel e g e' H.
      apply init_inv in H as (f & _ & ->). reflexivity.
    - intros key d g _ Hg. exact Hg.
    - exact moved_score. }
  assert (Hlen : Z.of_nat (List.length (snake g))
                 <= Z.of_nat (List.length (cells (width g) (height g)))).
  { apply Nat2Z.inj_le. apply NoDup_incl_length; [exact Hnd|].
    intros p Hp. apply In_cells. rewrite Forall_forall in Hsn. now apply Hsn. }
  rewrite length_cells in Hlen by assumption. lia.
Qed.

Lemma score_is_bounded_witness :
  Z.of_nat (List.length (snake fed_game))
    <= (width fed_game - 2) * (height fed_game - 2) /\
  score fed_game <= 10 * ((width fed_game - 2) * (height fed_game - 2) - 1).
Proof.
  exact (score_is_bounded fed_game fed_game_reachable).
Defined.

(** ** What a tick does to the world *)

Lemma generate_food_world w h body fuel :
  forall e,
    let e' := snd (generate_food w h body fuel e) in
    draws e' = draws e /\ kbd e' = kbd e /\ clock e' = clock e /\
    (cursor e <= cursor e')%nat.
Proof.
  induction fuel as [|fuel IH]; intros e; cbv zeta.
  - cbn. repeat split. lia.
  - destruct (Z_lt_le_dec (w - 2) 1) as [Hw | Hw].
    { rewrite generate_food_no_columns by assumption. cbn.
      repeat split. lia. }
    destruct (Z_lt_le_dec (h - 2) 1) as [Hh | Hh].
    { rewrite generate_food_no_rows by assumption. cbn.
      repeat split. lia. }
    rewrite generate_food_round by assumption.
    destruct (mem _ body).
    + destruct (IH (advance e)) as (Hd & Hk & Hc & Hn).
      change (draws (advance e)) with (draws e) in Hd.
      change (kbd (advance e)) with (kbd e) in Hk.
      change (clock (advance e)) with (clock e) in Hc.
      change (cursor (advance e)) with (S (S (cursor e))) in Hn.
      split; [exact Hd | split; [exact Hk | split; [exact Hc | lia]]].
    + cbn. repeat split. lia.
Qed.

(** X22. A tick never reads a key or the clock.  [move_snake] leaves the
    keyboard buffer and the clock as they are, whatever way it ends; it
    touches the random source only to draw food, and not at all when the
    cell ahead is not the food. *)
Theorem tick_leaves_keyboard_and_clock
  (fuel : nat) (g : Game) (e : Env) :
  let e' := snd (snd (move_snake fuel (g, e))) in
  kbd e' = kbd e /\ clock e' = clock e /\ draws e' = draws e /\
  (cursor e <= cursor e')%nat /\
  (forall head rest,
     snake g = head :: rest -> ahead g head <> food g -> e' = e).
Proof.
  cbv zeta.
  assert (H : forall res,
             move_snake fuel (g, e) = res ->
             kbd (snd (snd res)) = kbd e /\
             clock (snd (snd res)) = clock e /\
             draws (snd (snd res)) = draws e /\
             (cursor e <= cursor (snd (snd res)))%nat /\
             (forall head rest,
                snake g = head :: rest -> ahead g head <> food g ->
                snd (snd res) = e)); [|now apply H].
  move_cases g as head rest Hs Hw Hm Hf; intros res <-; cbn [fst snd];
    try (repeat split; auto; fail).
  pose proof (generate_food_world (width g) (height g)
                (ahead g head :: snake g) fuel e) as Hg.
  cbv zeta in Hg. apply pos_eqb_eq in Hf.
  destruct (generate_food _ _ _ _ _) as [[f|x|] e1];
    cbn [fst snd] in *; destruct Hg as (Hd & Hk & Hc & Hn);
    (split; [exact Hk | split; [exact Hc | split; [exact Hd
      | split; [exact Hn|]]]]);
    intros head' rest' [= <- <-] Hne; contradiction.
Qed.

Lemma tick_leaves_keyboard_and_clock_witness :
  snd (snd (move_snake 0 (before_gap, counting_env ["w"%char] [Expire])))
    = counting_env ["w"%char] [Expire].
Proof.
  pose proof (tick_leaves_keyboard_and_clock 0 before_gap
                (counting_env ["w"%char] [Expire])) as H.
  cbv zeta in H.
  apply (proj2 (proj2 (proj2 (proj2 H))) (5, 5) []).
  - reflexivity.
  - discriminate.
Defined.
